(** * Verification of the subspace sum-type core

    A shallow embedding of
    - [sus::num::__private::int_log10] (sus/num/__private/int_log10.h),
    - the recursive storage union of [Choice], namespace
      [sus::choice_type::__private] (src/unnamed/part_006),
    - [sus::option::Option] (subspace/option/option.h) and the dispatch of
      [sus::clone_into] (sus/mem/clone.h),
    together with the properties that the specification states about them. *)

From Stdlib Require Import ZArith Lia List.
From stdpp Require Import base option gmap.

(* ===================================================================== *)
(** * Part I: integer base-10 logarithm                                   *)
(* ===================================================================== *)

Module int_log10.
Local Open Scope Z_scope.

(** [uint32_t] arithmetic wraps around at [2^32]. *)
Definition u32_max : Z := 4294967295.
Definition wrap32 (z : Z) : Z := z mod 2 ^ 32.
Definition add32 (a b : Z) : Z := wrap32 (a + b).

(** The four constants of [less_than_5], written as in the source:
    a bit pattern above the low 17 bits minus a power of ten. *)
Definition C1 : Z := wrap32 (Z.shiftl 3 17 - 10).
Definition C2 : Z := wrap32 (Z.shiftl 4 17 - 100).
Definition C3 : Z := wrap32 (Z.shiftl 7 17 - 1000).
Definition C4 : Z := wrap32 (Z.shiftl 4 17 - 10000).

(** [less_than_5]:
    [(((val + C1) & (val + C2)) ^ ((val + C3) & (val + C4))) >> 17]. *)
Definition less_than_5 (val : Z) : Z :=
  Z.shiftr
    (Z.lxor (Z.land (add32 val C1) (add32 val C2))
            (Z.land (add32 val C3) (add32 val C4)))
    17.

(** [u32]: strip five digits when there are more than five, then finish with
    the branchless helper. *)
Definition u32 (val : Z) : Z :=
  let log := 0 in
  let '(val, log) :=
    if 100000 <=? val then (val / 100000, add32 log 5) else (val, log) in
  add32 log (less_than_5 val).

(** The mathematical meaning of "floor of the base-10 logarithm": [r] is the
    number of decimal digits of [v] minus one. *)
Definition is_floor_log10 (v r : Z) : Prop :=
  0 <= r /\ 10 ^ r <= v < 10 ^ (r + 1).

(** The number of decimal digits of a positive number, by repeated division. *)
Fixpoint decimal_digits_fuel (fuel : nat) (v : Z) : Z :=
  match fuel with
  | O => 0
  | S f => if v <? 10 then 1 else 1 + decimal_digits_fuel f (v / 10)
  end.
Definition decimal_digits (v : Z) : Z := decimal_digits_fuel 10 v.

(** [uint8_t], [uint16_t] and [uint64_t] wrap-around, and the conversion of a
    signed value to the unsigned type of the same width
    ([static_cast<uintN_t>(val)]). *)
Definition u64_max : Z := 18446744073709551615.
Definition wrap8 (z : Z) : Z := z mod 2 ^ 8.
Definition wrap16 (z : Z) : Z := z mod 2 ^ 16.
Definition wrap64 (z : Z) : Z := z mod 2 ^ 64.

(** [u8] and [u16]: the value is widened to [uint32_t]. *)
Definition u8 (val : Z) : Z := less_than_5 (wrap32 val).
Definition u16 (val : Z) : Z := less_than_5 (wrap32 val).

(** [u64]: strip ten digits, then five, then finish with the branchless
    helper on the value narrowed to [uint32_t]. *)
Definition u64 (val : Z) : Z :=
  let log := 0 in
  let '(val, log) :=
    if 10000000000 <=? val then (val / 10000000000, add32 log 10)
    else (val, log) in
  let '(val, log) :=
    if 100000 <=? val then (val / 100000, add32 log 5) else (val, log) in
  add32 log (less_than_5 (wrap32 val)).

(** The signed entry points cast to the unsigned type and forward. *)
Definition i8 (val : Z) : Z := u8 (wrap8 val).
Definition i16 (val : Z) : Z := u16 (wrap16 val).
Definition i32 (val : Z) : Z := u32 (wrap32 val).
Definition i64 (val : Z) : Z := u64 (wrap64 val).

End int_log10.

(* ===================================================================== *)
(** * Part II: the recursive storage union of Choice                      *)
(* ===================================================================== *)

Module choice_storage.

(** [std::strong_ordering], [std::weak_ordering], [std::partial_ordering]. *)
Inductive strong_ordering := strong_less | strong_equivalent | strong_greater.
Inductive weak_ordering := weak_less | weak_equivalent | weak_greater.
Inductive partial_ordering :=
  partial_less | partial_equivalent | partial_greater | partial_unordered.

(** The storage type of one alternative selects the specialization of
    [Storage<I, ...>]: [Nothing] (a tag without values), [Tuple<T>] (one
    value) or [Tuple<Ts...>] with [sizeof...(Ts) > 1]. *)
Inductive Element := Nothing | Tuple1 | TupleN.

(** What a member function of the union can do besides returning. *)
Inductive outcome (A : Type) :=
| Ret (a : A)
| Panic        (* [sus::check] failed: the process terminates *)
| NoMember     (* the body names a member function that no [Storage]
                  specialization declares: the call cannot be instantiated *)
| Undefined.   (* a union member is used outside its lifetime *)
Arguments Ret {A} a.
Arguments Panic {A}.
Arguments NoMember {A}.
Arguments Undefined {A}.

(** Lifetime events observable on a storage chain. *)
Inductive event :=
| DestroyTuple (level : nat)   (* [tuple_.~Type()] in [Storage<level, ...>] *)
| DestroyMore (level : nat).   (* [more_.~Storage<level, ...>()] *)

(** Whether the body of [strong_ord] can be instantiated at every level of
    the chain [e, rest...]: the body of a level with several values that is
    not the last one names [more_.ord], which no storage has; the bodies of
    the other levels forward to [more_.strong_ord] of the next level. *)
Fixpoint strong_ord_instantiable (e : Element) (rest : list Element) : bool :=
  match rest with
  | [] => true
  | e' :: rest' =>
      match e with
      | TupleN => false
      | Nothing | Tuple1 => strong_ord_instantiable e' rest'
      end
  end.

(** The [more_] destructors that run while [destroy] returns from level
    [I + k] to level [I], innermost first. *)
Fixpoint unwind (I k : nat) : list event :=
  match k with
  | O => []
  | S k' => unwind (S I) k' ++ [DestroyMore (S I)]
  end.

Definition payload_destroys (tr : list event) : list nat :=
  flat_map (fun e => match e with DestroyTuple l => [l] | DestroyMore _ => [] end) tr.

Section Storage.
(** The values held by an alternative (a tuple of its declared types). *)
Variable V : Type.
(** Comparisons of the alternatives' tuples. *)
Variable tuple_eq : V -> V -> bool.
Variable strong_order : V -> V -> strong_ordering.
Variable weak_order : V -> V -> weak_ordering.
Variable partial_order : V -> V -> partial_ordering.

(** The union [Storage<I, E, Elements...>] has the members [tuple_] (unless
    [E] is [Nothing]) and [more_] (unless [Elements...] is empty); at most
    one of them is within its lifetime. *)
Inductive Storage :=
| inactive
| tuple_ (v : V)
| more_ (s : Storage).

(** [construct_choice_storage<I>(storage)]: activates [more_] [I] times and
    hands the storage of level [I] to the caller, here the continuation
    [k] (which then runs [construct] on it, or nothing for [Nothing]). *)
Fixpoint construct_choice_storage (I : nat) (k : Storage -> Storage)
    (storage : Storage) : Storage :=
  match I with
  | O => k storage
  | S I' => more_ (construct_choice_storage I' k inactive)
  end.

(** [construct(value)]: [std::construct_at(&tuple_, ...)]. *)
Definition construct (value : V) (_ : Storage) : Storage := tuple_ value.

(** What a reference to a storage designates: a storage within its
    lifetime, in the given state, or a member that is not the active one of
    its union, where no object is. *)
Inductive place :=
| in_lifetime (s : Storage)
| out_of_lifetime.

(** [find_choice_storage<I>(storage)]: returns the reference
    [storage.more_. ... .more_], with [I] times [more_].  It only forms the
    reference and reads nothing, so it returns for every storage; the
    reference designates a storage within its lifetime when [more_] is the
    active member on every level on the way. *)
Fixpoint find_choice_storage (I : nat) (storage : Storage) : place :=
  match I with
  | O => in_lifetime storage
  | S I' =>
      match storage with
      | more_ m => find_choice_storage I' m
      | _ => out_of_lifetime
      end
  end.

(** [activate_for_construct(index)] on [Storage<I, e, rest...>]. *)
Fixpoint activate_for_construct (I : nat) (e : Element) (rest : list Element)
    (index : nat) (s : Storage) : outcome Storage :=
  match rest with
  | [] => if Nat.eqb index I then Ret s else Panic
  | e' :: rest' =>
      if negb (Nat.eqb index I) then
        match activate_for_construct (S I) e' rest' index inactive with
        | Ret m => Ret (more_ m)
        | Panic => Panic
        | NoMember => NoMember
        | Undefined => Undefined
        end
      else Ret s
  end.

(** [tuple_.~Type()]: valid on a live [tuple_] only. *)
Definition destroy_tuple (I : nat) (s : Storage) : outcome (list event * Storage) :=
  match s with
  | tuple_ _ => Ret ([DestroyTuple I], inactive)
  | _ => Undefined
  end.

(** [destroy(index)] on [Storage<I, e, rest...>]. *)
Fixpoint destroy (I : nat) (e : Element) (rest : list Element)
    (index : nat) (s : Storage) : outcome (list event * Storage) :=
  match rest with
  | [] =>
      (* the last level: [sus::check(index == I)] *)
      if Nat.eqb index I then
        match e with
        | Nothing => Ret ([], s)
        | Tuple1 | TupleN => destroy_tuple I s
        end
      else Panic
  | e' :: rest' =>
      let descend :=
        match s with
        | more_ m =>
            match destroy (S I) e' rest' index m with
            | Ret (tr, _) => Ret (tr ++ [DestroyMore (S I)], inactive)
            | Panic => Panic
            | NoMember => NoMember
            | Undefined => Undefined
            end
        | _ => Undefined
        end in
      match e with
      | Nothing => if negb (Nat.eqb index I) then descend else Ret ([], s)
      | Tuple1 | TupleN => if Nat.eqb index I then destroy_tuple I s else descend
      end
  end.

(** Reading [tuple_] of both operands of a comparison. *)
Definition with_tuples {A} (f : V -> V -> A) (s other : Storage) : outcome A :=
  match s, other with
  | tuple_ v, tuple_ w => Ret (f v w)
  | _, _ => Undefined
  end.

(** Reading [more_] of both operands and continuing there. *)
Definition with_more {A} (f : Storage -> Storage -> outcome A)
    (s other : Storage) : outcome A :=
  match s, other with
  | more_ m, more_ m' => f m m'
  | _, _ => Undefined
  end.

(** [eq(index, other)]. *)
Fixpoint eq (I : nat) (e : Element) (rest : list Element)
    (index : nat) (s other : Storage) : outcome bool :=
  match rest with
  | [] =>
      if Nat.eqb index I then
        match e with
        | Nothing => Ret true
        | Tuple1 | TupleN => with_tuples tuple_eq s other
        end
      else Panic
  | e' :: rest' =>
      if Nat.eqb index I then
        match e with
        | Nothing => Ret true
        | Tuple1 | TupleN => with_tuples tuple_eq s other
        end
      else with_more (eq (S I) e' rest' index) s other
  end.

(** The body of [strong_ord(index, other)].  In the specialization for a
    tuple of several values that is followed by more alternatives, the
    non-live branch is [return more_.ord(index, other.more_);], and no
    specialization of [Storage] declares a member [ord]. *)
Fixpoint strong_ord_body (I : nat) (e : Element) (rest : list Element)
    (index : nat) (s other : Storage) : outcome strong_ordering :=
  match rest with
  | [] =>
      if Nat.eqb index I then
        match e with
        | Nothing => Ret strong_equivalent
        | Tuple1 | TupleN => with_tuples strong_order s other
        end
      else Panic
  | e' :: rest' =>
      match e with
      | Nothing =>
          if Nat.eqb index I then Ret strong_equivalent
          else with_more (strong_ord_body (S I) e' rest' index) s other
      | Tuple1 =>
          if Nat.eqb index I then with_tuples strong_order s other
          else with_more (strong_ord_body (S I) e' rest' index) s other
      | TupleN =>
          if Nat.eqb index I then with_tuples strong_order s other
          else NoMember
      end
  end.

(** [strong_ord(index, other)].  A member function of a class template is
    instantiated as a whole, and the call [more_.strong_ord(...)] in it
    instantiates the member of the next level: the function exists for a
    chain only if every body down the chain can be instantiated, whatever
    the index at run time. *)
Definition strong_ord (I : nat) (e : Element) (rest : list Element)
    (index : nat) (s other : Storage) : outcome strong_ordering :=
  if strong_ord_instantiable e rest then strong_ord_body I e rest index s other
  else NoMember.

(** [weak_ord(index, other)]. *)
Fixpoint weak_ord (I : nat) (e : Element) (rest : list Element)
    (index : nat) (s other : Storage) : outcome weak_ordering :=
  match rest with
  | [] =>
      if Nat.eqb index I then
        match e with
        | Nothing => Ret weak_equivalent
        | Tuple1 | TupleN => with_tuples weak_order s other
        end
      else Panic
  | e' :: rest' =>
      if Nat.eqb index I then
        match e with
        | Nothing => Ret weak_equivalent
        | Tuple1 | TupleN => with_tuples weak_order s other
        end
      else with_more (weak_ord (S I) e' rest' index) s other
  end.

(** [partial_ord(index, other)]. *)
Fixpoint partial_ord (I : nat) (e : Element) (rest : list Element)
    (index : nat) (s other : Storage) : outcome partial_ordering :=
  match rest with
  | [] =>
      if Nat.eqb index I then
        match e with
        | Nothing => Ret partial_equivalent
        | Tuple1 | TupleN => with_tuples partial_order s other
        end
      else Panic
  | e' :: rest' =>
      if Nat.eqb index I then
        match e with
        | Nothing => Ret partial_equivalent
        | Tuple1 | TupleN => with_tuples partial_order s other
        end
      else with_more (partial_ord (S I) e' rest' index) s other
  end.

(** The state of the level that an alternative of kind [e] occupies while
    it is the live one: its [tuple_], or no member at all for [Nothing]. *)
Definition live_level (e : Element) (payload : V) : Storage :=
  match e with
  | Nothing => inactive
  | Tuple1 | TupleN => tuple_ payload
  end.

(** Sequencing of two steps of a member function. *)
Definition and_then {A B} (o : outcome A) (k : A -> outcome B) : outcome B :=
  match o with
  | Ret a => k a
  | Panic => Panic
  | NoMember => NoMember
  | Undefined => Undefined
  end.

(** [std::construct_at(&tuple_, from.tuple_)]: reads the source's [tuple_]
    and makes [tuple_] the live member of the destination. *)
Definition construct_tuple_from (f : V -> V) (from : Storage) : outcome Storage :=
  match from with
  | tuple_ v => Ret (tuple_ (f v))
  | _ => Undefined
  end.

(** [copy_construct(index, from)] on [Storage<I, e, rest...>]; the payload
    is copied, so the destination gets the value of the source. *)
Fixpoint copy_construct (I : nat) (e : Element) (rest : list Element)
    (index : nat) (s from : Storage) : outcome Storage :=
  match rest with
  | [] =>
      if Nat.eqb index I then
        match e with
        | Nothing => Ret s
        | Tuple1 | TupleN => construct_tuple_from (fun v => v) from
        end
      else Panic
  | e' :: rest' =>
      let descend :=
        (* [std::construct_at(&more_)], then [more_.copy_construct] *)
        match from with
        | more_ m =>
            and_then (copy_construct (S I) e' rest' index inactive m)
                     (fun d => Ret (more_ d))
        | _ => Undefined
        end in
      match e with
      | Nothing => if negb (Nat.eqb index I) then descend else Ret s
      | Tuple1 | TupleN =>
          if Nat.eqb index I then construct_tuple_from (fun v => v) from
          else descend
      end
  end.

(** [move_construct(index, Storage&& from)]; the payload is moved, the
    destination gets the value the source had. *)
Fixpoint move_construct (I : nat) (e : Element) (rest : list Element)
    (index : nat) (s from : Storage) : outcome Storage :=
  match rest with
  | [] =>
      if Nat.eqb index I then
        match e with
        | Nothing => Ret s
        | Tuple1 | TupleN => construct_tuple_from (fun v => v) from
        end
      else Panic
  | e' :: rest' =>
      let descend :=
        match from with
        | more_ m =>
            and_then (move_construct (S I) e' rest' index inactive m)
                     (fun d => Ret (more_ d))
        | _ => Undefined
        end in
      match e with
      | Nothing => if negb (Nat.eqb index I) then descend else Ret s
      | Tuple1 | TupleN =>
          if Nat.eqb index I then construct_tuple_from (fun v => v) from
          else descend
      end
  end.

(** [clone_construct(index, from)], with [clone] the [sus::clone] of the
    alternatives' tuples.  The specializations that hold a tuple activate
    [more_] before they descend; the one for [Nothing] calls
    [more_.clone_construct] on [more_] as it is. *)
Fixpoint clone_construct (clone : V -> V) (I : nat) (e : Element)
    (rest : list Element) (index : nat) (s from : Storage) : outcome Storage :=
  match rest with
  | [] =>
      if Nat.eqb index I then
        match e with
        | Nothing => Ret s
        | Tuple1 | TupleN => construct_tuple_from clone from
        end
      else Panic
  | e' :: rest' =>
      match e with
      | Nothing =>
          if negb (Nat.eqb index I) then
            match s, from with
            | more_ d, more_ m =>
                and_then (clone_construct clone (S I) e' rest' index d m)
                         (fun d' => Ret (more_ d'))
            | _, _ => Undefined
            end
          else Ret s
      | Tuple1 | TupleN =>
          if Nat.eqb index I then construct_tuple_from clone from
          else
            match from with
            | more_ m =>
                and_then (clone_construct clone (S I) e' rest' index inactive m)
                         (fun d => Ret (more_ d))
            | _ => Undefined
            end
      end
  end.

(** [tuple_ = from.tuple_]: both [tuple_] members have to be live. *)
Definition assign_tuple (s from : Storage) : outcome Storage :=
  with_tuples (fun _ v => tuple_ v) s from.

(** [copy_assign(index, from)] on [Storage<I, e, rest...>]. *)
Fixpoint copy_assign (I : nat) (e : Element) (rest : list Element)
    (index : nat) (s from : Storage) : outcome Storage :=
  match rest with
  | [] =>
      if Nat.eqb index I then
        match e with
        | Nothing => Ret s
        | Tuple1 | TupleN => assign_tuple s from
        end
      else Panic
  | e' :: rest' =>
      let descend :=
        with_more (fun d m =>
                     and_then (copy_assign (S I) e' rest' index d m)
                              (fun d' => Ret (more_ d'))) s from in
      match e with
      | Nothing => if negb (Nat.eqb index I) then descend else Ret s
      | Tuple1 | TupleN =>
          if Nat.eqb index I then assign_tuple s from else descend
      end
  end.

(** [move_assign(index, Storage&& from)] on [Storage<I, e, rest...>]. *)
Fixpoint move_assign (I : nat) (e : Element) (rest : list Element)
    (index : nat) (s from : Storage) : outcome Storage :=
  match rest with
  | [] =>
      if Nat.eqb index I then
        match e with
        | Nothing => Ret s
        | Tuple1 | TupleN => assign_tuple s from
        end
      else Panic
  | e' :: rest' =>
      let descend :=
        with_more (fun d m =>
                     and_then (move_assign (S I) e' rest' index d m)
                              (fun d' => Ret (more_ d'))) s from in
      match e with
      | Nothing => if negb (Nat.eqb index I) then descend else Ret s
      | Tuple1 | TupleN =>
          if Nat.eqb index I then assign_tuple s from else descend
      end
  end.

End Storage.

(** The value a comparison of two storages live at an alternative of kind
    [el] must have: the comparison of the two payloads, or the fixed result
    for an alternative without values. *)
Definition payload_result {V A} (el : Element) (f : V -> V -> A) (same : A)
    (v w : V) : A :=
  match el with
  | Nothing => same
  | Tuple1 | TupleN => f v w
  end.

(** Whether an alternative of several values stands before the last
    alternative of a Choice. *)
Definition multi_value_before_last (elements : list Element) : bool :=
  existsb (fun x => match x with TupleN => true | _ => false end)
          (removelast elements).

(** What destroying a live alternative of kind [e] at [index] must destroy. *)
Definition expected_payload_destroys (e : Element) (index : nat) : list nat :=
  match e with
  | Nothing => []
  | Tuple1 | TupleN => [index]
  end.

(** The whole trace of destroying the alternative of kind [e] that lives [k]
    levels below level [I]. *)
Definition expected_trace (e : Element) (I k : nat) : list event :=
  map DestroyTuple (expected_payload_destroys e (I + k)) ++ unwind I k.

Arguments inactive {V}.
Arguments tuple_ {V} v.
Arguments more_ {V} s.
Arguments in_lifetime {V} s.
Arguments out_of_lifetime {V}.

(** A concrete instance: payloads are integers compared as numbers. *)
Definition Z_strong_order (a b : Z) : strong_ordering :=
  match Z.compare a b with
  | Lt => strong_less
  | Eq => strong_equivalent
  | Gt => strong_greater
  end.

Definition Z_weak_order (a b : Z) : weak_ordering :=
  match Z.compare a b with
  | Lt => weak_less
  | Eq => weak_equivalent
  | Gt => weak_greater
  end.

Definition Z_partial_order (a b : Z) : partial_ordering :=
  match Z.compare a b with
  | Lt => partial_less
  | Eq => partial_equivalent
  | Gt => partial_greater
  end.

(** The alternatives after the first one of a Choice declared with a tag
    without values, a single value and a pair; and a storage constructed
    into alternative [index], of kind [e], with payload [v]. *)
Definition sample_rest : list Element := [Tuple1; TupleN].
Definition sample_live (index : nat) (e : Element) (v : Z) : Storage Z :=
  construct_choice_storage Z index (fun _ => live_level Z e v) inactive.

End choice_storage.

(* ===================================================================== *)
(** * Part III: Option                                                    *)
(* ===================================================================== *)

Module option.

(** Modelled from the spec: the discriminant [State] of
    subspace/option/state.h, which is not among the sources; its values are
    [None] and [Some]. *)
Inductive State := None_ | Some_.

Definition State_eqb (a b : State) : bool :=
  match a, b with
  | None_, None_ | Some_, Some_ => true
  | _, _ => false
  end.

(** The address of an [Option] object. *)
Abbreviation addr := positive.

(** The compile-time classification of the payload type that selects
    between the defaulted and the hand-written special members
    ([IsTrivial...OrRef<T>], [Copy<T>], [HasCloneFromMethod<T>]). *)
Record Traits := {
  trivial_dtor : bool;
  trivial_copy_ctor : bool;
  trivial_move_ctor : bool;
  trivial_copy_assign : bool;
  trivial_move_assign : bool;
  is_copy : bool;
  has_clone_from : bool;
}.

Section Option.
(** The payload type, its [clone()], its [clone_from(source)] (the value
    the destination has afterwards) and its default constructor [T()].  A
    payload that is copied or moved from one of value [v] has the value [v]. *)
Variable T : Type.
Variable clone_T : T -> T.
Variable clone_from_T : T -> T -> T.
Variable default_T : T.
Variable traits : Traits.

(** What happens to payload objects, in program order. *)
Inductive event :=
| EvConstruct (a : addr) (v : T)  (* a payload is constructed in the Option at [a] *)
| EvDestroy (a : addr)            (* the payload of the Option at [a] is destroyed *)
| EvAssign (a : addr)             (* [T::operator=] runs on the payload of [a] *)
| EvCloneFrom (a : addr)          (* [T::clone_from] runs on the payload of [a] *)
| EvCall (v : T).                 (* a caller-supplied predicate is called on [v] *)

(** The objects alive and the payload events so far.  The storage [t_] of
    an [Option<T>] is [None] in state [None] and [Some v] in state [Some]
    with the live payload [v]. *)
Record world := World {
  objs : gmap addr (option T);
  log : list event;
}.

Inductive outcome (A : Type) :=
| Ret (a : A) (w : world)
| Panic (msg : option (list Byte.byte))  (* fatal contract violation *)
| Undefined.                             (* undefined behaviour *)
Arguments Ret {A} a w.
Arguments Panic {A} msg.
Arguments Undefined {A}.

Definition M (A : Type) : Type := world -> outcome A.

Definition ret {A} (a : A) : M A := fun w => Ret a w.
Definition bind {A B} (m : M A) (k : A -> M B) : M B :=
  fun w =>
    match m w with
    | Ret a w' => k a w'
    | Panic msg => Panic msg
    | Undefined => Undefined
    end.

Notation "'do' x <- m ; k" := (bind m (fun x => k))
  (at level 10, x name, m at level 99, k at level 200).
Notation "m ;;; k" := (bind m (fun _ => k))
  (at level 100, k at level 200, right associativity).

Definition emit (e : event) : M unit :=
  fun w => Ret tt {| objs := objs w; log := log w ++ [e] |}.
Definition load (a : addr) : M (option T) :=
  fun w => match objs w !! a with
           | Some s => Ret s w
           | None => Undefined
           end.
Definition store (a : addr) (s : option T) : M unit :=
  fun w => Ret tt {| objs := <[a := s]> (objs w); log := log w |}.
Definition free (a : addr) : M unit :=
  fun w => Ret tt {| objs := delete a (objs w); log := log w |}.
Definition undefined {A} : M A := fun _ => Undefined.

(** Modelled from the spec: [sus::check] and [sus::check_with_message] of
    subspace/assertions/check.h, which is not among the sources.  A failed
    check is a fatal contract violation: the process terminates with a
    diagnostic, and nothing is returned. *)
Definition check (b : bool) : M unit :=
  fun w => if b then Ret tt w else Panic None.
Definition check_with_message (b : bool) (msg : list Byte.byte) : M unit :=
  fun w => if b then Ret tt w else Panic (Some msg).

(** ** The storage cell [t_]

    [Storage<T>] of subspace/option/__private/storage.h is not among the
    sources.  The spec describes the cell: it holds a discriminant and a
    payload slot; the discriminant reflects whether the slot is live; a live
    slot is destroyed exactly once before it is reused; the slot becomes
    live on construction and dead on explicit destroy or on move-out; an
    overwrite destroys the old payload, constructs the new one and updates
    the discriminant. *)

(** Modelled from the spec: [Storage::state()], the discriminant of the
    cell. *)
Definition state (a : addr) : M State :=
  do s <- load a ; ret (match s with Some _ => Some_ | None => None_ end).

(** Modelled from the spec: [Storage::val()], the live payload; reading it
    is only valid while the slot is live. *)
Definition val (a : addr) : M T :=
  do s <- load a ; match s with Some v => ret v | None => undefined end.

(** Modelled from the spec: [Storage::construct_from_none(v)], which
    constructs the payload in a slot that is not live and sets the
    discriminant to [Some]. *)
Definition construct_from_none (a : addr) (v : T) : M unit :=
  do s <- load a ;
  match s with
  | None => emit (EvConstruct a v) ;;; store a (Some v)
  | Some _ => undefined
  end.

(** Modelled from the spec: [Storage::set_none()], which destroys the live
    payload and sets the discriminant to [None]. *)
Definition set_none (a : addr) : M unit :=
  do s <- load a ;
  match s with
  | Some _ => emit (EvDestroy a) ;;; store a None
  | None => undefined
  end.

(** Modelled from the spec: [Storage::set_some(v)], which makes the cell
    hold [v] whatever it held: a live payload is destroyed first, then the
    new one is constructed and the discriminant is [Some]. *)
Definition set_some (a : addr) (v : T) : M unit :=
  do s <- load a ;
  match s with
  | None => emit (EvConstruct a v) ;;; store a (Some v)
  | Some _ => emit (EvDestroy a) ;;; emit (EvConstruct a v) ;;; store a (Some v)
  end.

(** Modelled from the spec: [Storage::set_some(t)] called with a [const T&]
    that refers to the payload of the Option at [src], which is what
    [copy_to_storage(o.t_.val())] is for a payload that is not a reference
    ([decltype(auto)] with [return t]).  The steps are those of [set_some];
    the argument is read when the new payload is constructed from it, after
    the old one was destroyed, so a reference into the cell that is being
    overwritten refers to a payload that is gone. *)
Definition set_some_from (a src : addr) : M unit :=
  do s <- load a ;
  match s with
  | None => do v <- val src ; emit (EvConstruct a v) ;;; store a (Some v)
  | Some _ =>
      emit (EvDestroy a) ;;;
      do v <- (if Pos.eqb src a then undefined else val src) ;
      emit (EvConstruct a v) ;;; store a (Some v)
  end.

(** Modelled from the spec: [Storage::take_and_set_none()], the move-out:
    the payload is moved to the caller, the slot it leaves is destroyed and
    the discriminant becomes [None]. *)
Definition take_and_set_none (a : addr) : M T :=
  do s <- load a ;
  match s with
  | Some v => emit (EvDestroy a) ;;; store a None ;;; ret v
  | None => undefined
  end.

(** Modelled from the spec: [Storage::destroy()], the explicit destruction
    of the live payload at the end of the owner's lifetime. *)
Definition destroy (a : addr) : M unit :=
  do s <- load a ;
  match s with
  | Some _ => emit (EvDestroy a)
  | None => undefined
  end.

(** ** Constructors and destructor *)

(** [Option()]: an Option holding no value, at [this]. *)
Definition Option_none (this : addr) : M unit := store this None.

(** [Option(T&& t) : t_(move(t))] (and the [const T&] form). *)
Definition Option_some (this : addr) (t : T) : M unit :=
  emit (EvConstruct this t) ;;; store this (Some t).

(** [Option::with(t)]. *)
Definition with_ (this : addr) (t : T) : M unit := Option_some this t.

(** [~Option()]: defaulted when [IsTrivialDtorOrRef<T>], otherwise
    [if (t_.state() == Some) t_.destroy();]. *)
Definition dtor (this : addr) : M unit :=
  (if trivial_dtor traits then ret tt
   else do st <- state this ;
        if State_eqb st Some_ then destroy this else ret tt) ;;;
  free this.

(** A defaulted (trivial) copy or move: the representation of [o] is
    copied; no payload member function runs and [o] is not written. *)
Definition trivial_copy (this o : addr) : M unit :=
  do s <- load o ; store this s.

(** [Option(const Option& o)]. *)
Definition copy_ctor (this o : addr) : M unit :=
  if trivial_copy_ctor traits then trivial_copy this o
  else
    Option_none this ;;;
    do st <- state o ;
    if State_eqb st Some_ then do v <- val o ; construct_from_none this v
    else ret tt.

(** [Option(Option&& o)]. *)
Definition move_ctor (this o : addr) : M unit :=
  if trivial_move_ctor traits then trivial_copy this o
  else
    Option_none this ;;;
    do st <- state o ;
    if State_eqb st Some_ then
      do v <- take_and_set_none o ; construct_from_none this v
    else ret tt.

(** [Option& operator=(const Option& o)]: [set_some] receives
    [copy_to_storage(o.t_.val())], a reference to the payload of [o]. *)
Definition copy_assign (this o : addr) : M unit :=
  if trivial_copy_assign traits then trivial_copy this o
  else
    do st <- state o ;
    if State_eqb st Some_ then set_some_from this o
    else
      do st' <- state this ;
      if State_eqb st' Some_ then set_none this else ret tt.

(** [Option& operator=(Option&& o)]. *)
Definition move_assign (this o : addr) : M unit :=
  if trivial_move_assign traits then trivial_copy this o
  else
    do st <- state o ;
    if State_eqb st Some_ then do v <- take_and_set_none o ; set_some this v
    else
      do st' <- state this ;
      if State_eqb st' Some_ then set_none this else ret tt.

(** ** Clone *)

(** [sus::clone(source)] of sus/mem/clone.h. *)
Definition clone_value (source : T) : T :=
  if is_copy traits then source else clone_T source.

(** [sus::clone_into(dest, source)] of sus/mem/clone.h, where [dest] is the
    payload of the Option at [a]. *)
Definition clone_into (a : addr) (source : T) : M unit :=
  do d <- val a ;
  if is_copy traits then
    emit (EvAssign a) ;;; store a (Some source)
  else if has_clone_from traits then
    emit (EvCloneFrom a) ;;; store a (Some (clone_from_T d source))
  else
    emit (EvAssign a) ;;; store a (Some (clone_T source)).

(** [Option clone() const&], the result constructed at [result]. *)
Definition clone (this result : addr) : M unit :=
  do st <- state this ;
  if State_eqb st Some_ then
    do v <- val this ; Option_some result (clone_value v)
  else Option_none result.

(** [void clone_from(const Option& source) &]; [tmp] is where the temporary
    [source.clone()] lives. *)
Definition clone_from (this source tmp : addr) : M unit :=
  if Pos.eqb source this then ret tt
  else
    do st <- state this ;
    do st' <- state source ;
    if State_eqb st Some_ && State_eqb st' Some_ then
      do v <- val source ; clone_into this v
    else
      clone source tmp ;;; move_assign this tmp ;;; dtor tmp.

(** ** Observers *)

Definition is_some (this : addr) : M bool :=
  do st <- state this ; ret (State_eqb st Some_).
Definition is_none (this : addr) : M bool :=
  do st <- state this ; ret (State_eqb st None_).

(** Writing [x] through the reference returned by [as_value_mut()]. *)
Definition as_value_mut_write (this : addr) (x : T) : M unit :=
  do st <- state this ;
  check (State_eqb st Some_) ;;;
  emit (EvAssign this) ;;; store this (Some x).

(** ** The unwrap family *)

Definition unwrap_unchecked (this : addr) : M T := take_and_set_none this.

Definition expect (this : addr) (msg : list Byte.byte) : M T :=
  do st <- state this ;
  check_with_message (State_eqb st Some_) msg ;;;
  unwrap_unchecked this.

Definition unwrap (this : addr) : M T :=
  do st <- state this ;
  check (State_eqb st Some_) ;;;
  unwrap_unchecked this.

Definition unwrap_or (this : addr) (default_result : T) : M T :=
  do st <- state this ;
  if State_eqb st Some_ then take_and_set_none this else ret default_result.

Definition unwrap_or_else (this : addr) (f : unit -> T) : M T :=
  do st <- state this ;
  if State_eqb st Some_ then take_and_set_none this else ret (f tt).

Definition unwrap_or_default (this : addr) : M T :=
  do st <- state this ;
  if State_eqb st Some_ then take_and_set_none this else ret default_T.

(** ** take and filter *)

(** [Option take() &], the result constructed at [result]. *)
Definition take (this result : addr) : M unit :=
  do st <- state this ;
  if State_eqb st Some_ then
    do v <- take_and_set_none this ; Option_some result v
  else Option_none result.

(** [Option<T> filter(p) &&], the result constructed at [result]. *)
Definition filter (this result : addr) (p : T -> bool) : M unit :=
  do st <- state this ;
  if State_eqb st Some_ then
    do v <- val this ;
    emit (EvCall v) ;;;
    if p v then
      do v' <- take_and_set_none this ; Option_some result v'
    else
      (* The state has to become None, and we must destroy the inner T. *)
      set_none this ;;; Option_none result
  else Option_none result.

(** ** Comparison: the friend operators read both operands *)

Definition as_value_unchecked (this : addr) : M T := val this.

Section Compare.
Variable T_eq : T -> T -> bool.
Variable T_cmp : T -> T -> choice_storage.strong_ordering.

(** [operator==(const Option& l, const Option& r)]. *)
Definition Option_eq (l r : addr) : M bool :=
  do st <- state l ;
  match st with
  | Some_ =>
      do rs <- is_some r ;
      if rs then
        do lv <- as_value_unchecked l ;
        do rv <- as_value_unchecked r ;
        ret (T_eq lv rv)
      else ret false
  | None_ => is_none r
  end.

(** [operator<=>(const Option& l, const Option& r)] for a payload with a
    strong ordering ([ExclusiveOrd<T>]). *)
Definition Option_cmp (l r : addr) : M choice_storage.strong_ordering :=
  do st <- state l ;
  match st with
  | Some_ =>
      do rs <- is_some r ;
      if rs then
        do lv <- as_value_unchecked l ;
        do rv <- as_value_unchecked r ;
        ret (T_cmp lv rv)
      else ret choice_storage.strong_greater
  | None_ =>
      do rs <- is_some r ;
      if rs then ret choice_storage.strong_less
      else ret choice_storage.strong_equivalent
  end.
End Compare.

(** Constructing an Option with [v] at [this] and then running [take_value]
    on it returns [v] and leaves the Option in state [None]. *)
Definition round_trips (this : addr) (v : T) (w : world) (take_value : M T)
    : Prop :=
  exists w', (with_ this v ;;; take_value) w = Ret v w' /\
             objs w' !! this = Some None.

(** ** Further members of Option *)

(** Modelled from the spec: [Storage::replace_some(v)], the [Some] to [Some]
    transition of [replace]: the payload is replaced in place by [v] and the
    value it had is handed to the caller; the slot stays live. *)
Definition replace_some (a : addr) (v : T) : M T :=
  do s <- load a ;
  match s with
  | Some old => emit (EvAssign a) ;;; store a (Some v) ;;; ret old
  | None => undefined
  end.

(** [as_value() const&] and [operator*() const&]: a checked look at the
    payload. *)
Definition as_value (this : addr) : M T :=
  do st <- state this ;
  check (State_eqb st Some_) ;;;
  val this.

(** [T& insert(T t) &]; the reference returned is modelled by the value it
    refers to. *)
Definition insert (this : addr) (t : T) : M T :=
  set_some this t ;;; val this.

(** [T& get_or_insert(T t) &]. *)
Definition get_or_insert (this : addr) (t : T) : M T :=
  do st <- state this ;
  (if State_eqb st None_ then construct_from_none this t else ret tt) ;;;
  val this.

(** [T& get_or_insert_default() &]. *)
Definition get_or_insert_default (this : addr) : M T :=
  do st <- state this ;
  (if State_eqb st None_ then construct_from_none this default_T else ret tt) ;;;
  val this.

(** [T& get_or_insert_with(f) &]. *)
Definition get_or_insert_with (this : addr) (f : unit -> T) : M T :=
  do st <- state this ;
  (if State_eqb st None_ then construct_from_none this (f tt) else ret tt) ;;;
  val this.

(** [Option replace(T t) &], the result constructed at [result]. *)
Definition replace (this result : addr) (t : T) : M unit :=
  do st <- state this ;
  if State_eqb st None_ then
    construct_from_none this t ;;; Option_none result
  else
    do old <- replace_some this t ; Option_some result old.

(** [Option<R> map(m) &&] for a map function from [T] to [T], the result
    constructed at [result]. *)
Definition map (this result : addr) (m : T -> T) : M unit :=
  do st <- state this ;
  if State_eqb st Some_ then
    do v <- take_and_set_none this ; Option_some result (m v)
  else Option_none result.

(** [R map_or(R default_result, m) &&]. *)
Definition map_or {R} (this : addr) (default_result : R) (m : T -> R) : M R :=
  do st <- state this ;
  if State_eqb st Some_ then
    do v <- take_and_set_none this ; ret (m v)
  else ret default_result.

(** [R map_or_else(default_fn, m) &&]. *)
Definition map_or_else {R} (this : addr) (default_fn : unit -> R) (m : T -> R)
    : M R :=
  do st <- state this ;
  if State_eqb st Some_ then
    do v <- take_and_set_none this ; ret (m v)
  else ret (default_fn tt).

(** An Option returned by value from a caller-supplied function, given by
    its state, is constructed at [result]. *)
Definition return_option (result : addr) (o : option T) : M unit :=
  match o with
  | Some u => Option_some result u
  | None => Option_none result
  end.

(** [Option<U> and_then(f) &&] for a function [f] from [T] to [Option<T>]. *)
Definition and_then (this result : addr) (f : T -> option T) : M unit :=
  do st <- state this ;
  if State_eqb st Some_ then
    do v <- take_and_set_none this ; return_option result (f v)
  else Option_none result.

(** [Option<T> or_that(Option<T> opt) &&]; the parameter object lives at
    [opt], and [return opt;] move-constructs the result from it. *)
Definition or_that (this opt result : addr) : M unit :=
  do st <- state this ;
  if State_eqb st Some_ then
    do v <- take_and_set_none this ; Option_some result v
  else move_ctor result opt.

(** [Option<T> or_else(f) &&]. *)
Definition or_else (this result : addr) (f : unit -> option T) : M unit :=
  do st <- state this ;
  if State_eqb st Some_ then
    do v <- take_and_set_none this ; Option_some result v
  else return_option result (f tt).

(** [Option<T> xor_that(Option<T> opt) &&]. *)
Definition xor_that (this opt result : addr) : M unit :=
  do st <- state this ;
  if State_eqb st Some_ then
    do st' <- state opt ;
    if State_eqb st' None_ then
      do v <- take_and_set_none this ; Option_some result v
    else
      set_none this ;;; Option_none result
  else move_ctor result opt.

(** [Option<U> and_that(Option<U> opt) &&] for [U = T]; [tmp] is where the
    temporary [Option<U>()] of [opt = Option<U>();] lives. *)
Definition and_that (this opt result tmp : addr) : M unit :=
  do st <- state this ;
  (if State_eqb st Some_ then set_none this
   else Option_none tmp ;;; move_assign opt tmp ;;; dtor tmp) ;;;
  move_ctor result opt.

(** The [const&] overloads: [sus::clone] of the Option copy-constructs a temporary
    at [tmp], the consuming member runs on it, and the temporary is
    destroyed at the end of the full expression. *)
Definition map_const (this tmp result : addr) (m : T -> T) : M unit :=
  copy_ctor tmp this ;;; map tmp result m ;;; dtor tmp.
Definition filter_const (this tmp result : addr) (p : T -> bool) : M unit :=
  copy_ctor tmp this ;;; filter tmp result p ;;; dtor tmp.

(** ** Payload accounting *)

(** How many payloads were constructed in, and destroyed in, the Option at
    [a]. *)
Fixpoint constructs (a : addr) (l : list event) : nat :=
  match l with
  | [] => 0
  | EvConstruct b _ :: l' => (if Pos.eqb a b then 1 else 0) + constructs a l'
  | _ :: l' => constructs a l'
  end.
Fixpoint destroys (a : addr) (l : list event) : nat :=
  match l with
  | [] => 0
  | EvDestroy b :: l' => (if Pos.eqb a b then 1 else 0) + destroys a l'
  | _ :: l' => destroys a l'
  end.

(** Every payload that was constructed and not destroyed since is the
    payload of an Option that is alive and in state [Some], and the other
    way round: nothing leaks, nothing is destroyed twice. *)
Definition balanced (w : world) : Prop :=
  forall a,
    constructs a (log w) =
    destroys a (log w) +
    match objs w !! a with Some (Some _) => 1 | _ => 0 end.

(** ** Programs over Options *)

(** One call of a member of Option, with the addresses of the objects it
    works on. *)
Inductive command :=
| CNone (this : addr)
| CWith (this : addr) (t : T)
| CDtor (this : addr)
| CCopyCtor (this o : addr)
| CMoveCtor (this o : addr)
| CCopyAssign (this o : addr)
| CMoveAssign (this o : addr)
| CClone (this result : addr)
| CCloneFrom (this source tmp : addr)
| CUnwrap (this : addr)
| CExpect (this : addr) (msg : list Byte.byte)
| CUnwrapOr (this : addr) (d : T)
| CUnwrapOrDefault (this : addr)
| CAsValue (this : addr)
| CWrite (this : addr) (x : T)
| CTake (this result : addr)
| CFilter (this result : addr) (p : T -> bool)
| CMap (this result : addr) (m : T -> T)
| CAndThen (this result : addr) (f : T -> option T)
| CInsert (this : addr) (t : T)
| CGetOrInsert (this : addr) (t : T)
| CReplace (this result : addr) (t : T)
| COrThat (this opt result : addr)
| CXorThat (this opt result : addr)
| CAndThat (this opt result tmp : addr).

(** Running a call and dropping the value it returns. *)
Definition drop {A} (m : M A) : M unit := do _x <- m ; ret tt.

Definition exec (c : command) : M unit :=
  match c with
  | CNone this => Option_none this
  | CWith this t => with_ this t
  | CDtor this => dtor this
  | CCopyCtor this o => copy_ctor this o
  | CMoveCtor this o => move_ctor this o
  | CCopyAssign this o => copy_assign this o
  | CMoveAssign this o => move_assign this o
  | CClone this result => clone this result
  | CCloneFrom this source tmp => clone_from this source tmp
  | CUnwrap this => drop (unwrap this)
  | CExpect this msg => drop (expect this msg)
  | CUnwrapOr this d => drop (unwrap_or this d)
  | CUnwrapOrDefault this => drop (unwrap_or_default this)
  | CAsValue this => drop (as_value this)
  | CWrite this x => as_value_mut_write this x
  | CTake this result => take this result
  | CFilter this result p => filter this result p
  | CMap this result m => map this result m
  | CAndThen this result f => and_then this result f
  | CInsert this t => drop (insert this t)
  | CGetOrInsert this t => drop (get_or_insert this t)
  | CReplace this result t => replace this result t
  | COrThat this opt result => or_that this opt result
  | CXorThat this opt result => xor_that this opt result
  | CAndThat this opt result tmp => and_that this opt result tmp
  end.

(** An object the call reads or changes is alive; an object it constructs
    is placed where no object is. *)
Definition alive (w : world) (a : addr) : Prop := is_Some (objs w !! a).
Definition unused (w : world) (a : addr) : Prop := objs w !! a = None.

Definition admissible (c : command) (w : world) : Prop :=
  match c with
  | CNone this | CWith this _ => unused w this
  | CDtor this | CUnwrap this | CExpect this _ | CUnwrapOr this _
  | CUnwrapOrDefault this | CAsValue this | CWrite this _
  | CInsert this _ | CGetOrInsert this _ => alive w this
  | CCopyCtor this o | CMoveCtor this o => unused w this /\ alive w o
  | CCopyAssign this o | CMoveAssign this o => alive w this /\ alive w o
  | CClone this result | CTake this result | CFilter this result _
  | CMap this result _ | CAndThen this result _ | CReplace this result _ =>
      alive w this /\ unused w result
  | CCloneFrom this source tmp =>
      alive w this /\ alive w source /\ unused w tmp
  | COrThat this opt result | CXorThat this opt result =>
      alive w this /\ alive w opt /\ this <> opt /\ unused w result
  | CAndThat this opt result tmp =>
      alive w this /\ alive w opt /\ this <> opt /\
      unused w result /\ unused w tmp /\ result <> tmp
  end.

(** The payload type has no trivial special member: every special member of
    the Option is the hand-written one. *)
Definition manual : Prop :=
  trivial_dtor traits = false /\
  trivial_copy_ctor traits = false /\
  trivial_move_ctor traits = false /\
  trivial_copy_assign traits = false /\
  trivial_move_assign traits = false.

(** ** Weak and partial ordering *)

(** [operator<=>(const Option& l, const Option& r)] for a payload whose
    strongest ordering is a weak one ([ExclusiveWeakOrd<T>]). *)
Definition Option_weak_cmp (T_cmp : T -> T -> choice_storage.weak_ordering)
    (l r : addr) : M choice_storage.weak_ordering :=
  do st <- state l ;
  match st with
  | Some_ =>
      do rs <- is_some r ;
      if rs then
        do lv <- as_value_unchecked l ;
        do rv <- as_value_unchecked r ;
        ret (T_cmp lv rv)
      else ret choice_storage.weak_greater
  | None_ =>
      do rs <- is_some r ;
      if rs then ret choice_storage.weak_less
      else ret choice_storage.weak_equivalent
  end.

(** [operator<=>(const Option& l, const Option& r)] for a payload that is
    only partially ordered ([ExclusivePartialOrd<T>]). *)
Definition Option_partial_cmp
    (T_cmp : T -> T -> choice_storage.partial_ordering)
    (l r : addr) : M choice_storage.partial_ordering :=
  do st <- state l ;
  match st with
  | Some_ =>
      do rs <- is_some r ;
      if rs then
        do lv <- as_value_unchecked l ;
        do rv <- as_value_unchecked r ;
        ret (T_cmp lv rv)
      else ret choice_storage.partial_greater
  | None_ =>
      do rs <- is_some r ;
      if rs then ret choice_storage.partial_less
      else ret choice_storage.partial_equivalent
  end.

End Option.

Arguments Ret {T A} a w.
Arguments Panic {T A} msg.
Arguments Undefined {T A}.
Arguments World {T} objs log.
Arguments objs {T} w.
Arguments log {T} w.
Arguments EvConstruct {T} a v.
Arguments EvDestroy {T} a.
Arguments EvAssign {T} a.
Arguments EvCloneFrom {T} a.
Arguments EvCall {T} v.

(** The result of comparing the operands the other way round. *)
Definition strong_flip (o : choice_storage.strong_ordering)
    : choice_storage.strong_ordering :=
  match o with
  | choice_storage.strong_less => choice_storage.strong_greater
  | choice_storage.strong_equivalent => choice_storage.strong_equivalent
  | choice_storage.strong_greater => choice_storage.strong_less
  end.

(** Payload classifications used in the examples: [int]-like (everything
    trivial) and a move-only, clone-only type with a destructor. *)
Definition trivial_traits : Traits :=
  {| trivial_dtor := true; trivial_copy_ctor := true; trivial_move_ctor := true;
     trivial_copy_assign := true; trivial_move_assign := true;
     is_copy := true; has_clone_from := false |}.
Definition nontrivial_traits : Traits :=
  {| trivial_dtor := false; trivial_copy_ctor := false; trivial_move_ctor := false;
     trivial_copy_assign := false; trivial_move_assign := false;
     is_copy := false; has_clone_from := false |}.

Definition trivially_assignable_traits : Traits :=
  {| trivial_dtor := false; trivial_copy_ctor := false; trivial_move_ctor := false;
     trivial_copy_assign := true; trivial_move_assign := true;
     is_copy := true; has_clone_from := false |}.

(** A payload type of the examples: integers behind a [clone()] that
    returns an equal value and a [clone_from] that takes the value of its
    source. *)
Definition Z_clone (z : Z) : Z := z.
Definition Z_clone_from (dest source : Z) : Z := source.

(** A world with one [Option<Z>] holding [Some(5)] at address 1, and one
    that also has an Option holding [None] at address 2. *)
Definition world_some5 : world Z :=
  World {[1%positive := Some 5%Z]} [].
Definition world_some5_none : world Z :=
  World (<[2%positive := None]> {[1%positive := Some 5%Z]}) [].
(** The same objects after their payloads were constructed: the history
    records the constructions. *)
Definition world_built : world Z :=
  World (<[2%positive := None]> {[1%positive := Some 5%Z]})
        [EvConstruct 1%positive 5%Z].
Definition world_two_some : world Z :=
  World (<[2%positive := Some 9%Z]> {[1%positive := Some 5%Z]}) [].

End option.

(* ===================================================================== *)
(** * Part IV: iterators over Options                                     *)
(* ===================================================================== *)

Module iter.

(** The Options of this part are returned and passed by value; they are
    modelled by what they hold, [option Item].  A call of [next()] on an
    iterator with state [St] gives the returned Option and the state after
    the call, or nothing when the call does not return. *)
Definition Next (St Item : Type) : Type := St -> option (option Item * St).

(** An iterator over a finite sequence, front first, which can also be taken
    from the back: the inner iterator the adaptors are run over. *)
Definition seq_next {Item} : Next (list Item) Item :=
  fun l => match l with
           | [] => Some (None, [])
           | x :: l' => Some (Some x, l')
           end.
Definition seq_next_back {Item} : Next (list Item) Item :=
  fun l => match List.rev l with
           | [] => Some (None, [])
           | x :: l' => Some (Some x, List.rev l')
           end.

(** Modelled from the spec: the consumers of [IteratorBase] (a range-based
    [for], [collect], [product], [sum]), which are not among the sources:
    they call [next()] until it returns [None] and hand on the items in
    order.  [fuel] bounds the number of calls. *)
Fixpoint drain {St Item} (fuel : nat) (next : Next St Item) (s : St)
    : option (list Item * St) :=
  match fuel with
  | O => None
  | S fuel' =>
      '(out, s') ← next s;
      match out with
      | None => Some ([], s')
      | Some x => '(items, s'') ← drain fuel' next s'; Some (x :: items, s'')
      end
  end.

(** The longest prefix whose items satisfy [p], and what follows it. *)
Fixpoint take_while {Item} (p : Item -> bool) (l : list Item) : list Item :=
  match l with
  | [] => []
  | x :: l' => if p x then x :: take_while p l' else []
  end.
Fixpoint drop_while {Item} (p : Item -> bool) (l : list Item) : list Item :=
  match l with
  | [] => []
  | x :: l' => if p x then drop_while p l' else l
  end.

(** ** [TakeWhile] of sus/iter/adaptors/take_while.h *)

Module TakeWhile.
Section TakeWhile.
Context {St Item : Type}.
Variable inner_next : Next St Item.

Record t := { pred_ : option (Item -> bool); next_iter_ : St }.

(** [TakeWhile(Pred&& pred, InnerSizedIter&& next_iter)]. *)
Definition with_ (pred : Item -> bool) (next_iter : St) : t :=
  {| pred_ := Some pred; next_iter_ := next_iter |}.

(** [Option<Item> next()]. *)
Definition next : Next t Item :=
  fun self =>
    match pred_ self with
    | None => Some (None, self)
    | Some pred =>
        '(out, it) ← inner_next (next_iter_ self);
        match out with
        | None => Some (None, {| pred_ := Some pred; next_iter_ := it |})
        | Some x =>
            if negb (pred x) then
              Some (None, {| pred_ := None; next_iter_ := it |})
            else Some (Some x, {| pred_ := Some pred; next_iter_ := it |})
        end
    end.

End TakeWhile.
Arguments t : clear implicits.
End TakeWhile.

(** The state a [TakeWhile] over the sequence [l] is in once it has returned
    [None]: the first rejected item was taken from the inner iterator and
    the predicate is gone, or the sequence ran out. *)
Definition take_while_end {Item} (p : Item -> bool) (l : list Item)
    : TakeWhile.t (list Item) Item :=
  match drop_while p l with
  | [] => {| TakeWhile.pred_ := Some p; TakeWhile.next_iter_ := [] |}
  | _ :: rest => {| TakeWhile.pred_ := None; TakeWhile.next_iter_ := rest |}
  end.

(** ** [Reverse], which follows [TakeWhile] in take_while.h *)

Module Reverse.
Section Reverse.
Context {St Item : Type}.
Variable inner_next inner_next_back : Next St Item.

(** [next()] is the inner [next_back()], [next_back()] the inner [next()]. *)
Definition next : Next St Item := fun self => inner_next_back self.
Definition next_back : Next St Item := fun self => inner_next self.

End Reverse.
End Reverse.

(** ** [SkipWhile] of sus/iter/adaptors/skip_while.h *)

Module SkipWhile.
Section SkipWhile.
Context {St Item : Type}.
Variable inner_next : Next St Item.

Record t := { pred_ : option (Item -> bool); next_iter_ : St }.

(** [SkipWhile(Pred&& pred, InnerSizedIter&& next_iter)]. *)
Definition with_ (pred : Item -> bool) (next_iter : St) : t :=
  {| pred_ := Some pred; next_iter_ := next_iter |}.

(** [Option<Item> next()]: one round of the [while (true)] loop per unit of
    [fuel]. *)
Fixpoint next (fuel : nat) (self : t) : option (option Item * t) :=
  match fuel with
  | O => None
  | S fuel' =>
      '(out, it) ← inner_next (next_iter_ self);
      match out, pred_ self with
      | Some x, Some pred =>
          if negb (pred x) then
            Some (out, {| pred_ := None; next_iter_ := it |})
          else next fuel' {| pred_ := Some pred; next_iter_ := it |}
      | _, _ => Some (out, {| pred_ := pred_ self; next_iter_ := it |})
      end
  end.

End SkipWhile.
Arguments t : clear implicits.
End SkipWhile.

(** ** [Filter] of the iterator adaptors *)

Module Filter.
Section Filter.
Context {St Item : Type}.
Variable inner_next inner_next_back : Next St Item.

Record t := { pred_ : Item -> bool; next_iter_ : St }.

(** [Filter(Pred&& pred, InnerSizedIter&& next_iter)]. *)
Definition with_ (pred : Item -> bool) (next_iter : St) : t :=
  {| pred_ := pred; next_iter_ := next_iter |}.

(** The loop shared by [next()] and [next_back()], over the inner call
    [step]: take items until one satisfies the predicate or none is left. *)
Fixpoint find (step : Next St Item) (fuel : nat) (self : t)
    : option (option Item * t) :=
  match fuel with
  | O => None
  | S fuel' =>
      '(item, it) ← step (next_iter_ self);
      let self' := {| pred_ := pred_ self; next_iter_ := it |} in
      match item with
      | None => Some (item, self')
      | Some x => if pred_ self x then Some (item, self')
                  else find step fuel' self'
      end
  end.

(** [Option<Item> next()] and [Option<Item> next_back()]. *)
Definition next (fuel : nat) : Next t Item := find inner_next fuel.
Definition next_back (fuel : nat) : Next t Item := find inner_next_back fuel.

End Filter.
Arguments t : clear implicits.
End Filter.

(** The same [Filter] over the inner sequence read from the other end. *)
Definition filter_back {Item} (st : Filter.t (list Item) Item)
    : Filter.t (list Item) Item :=
  {| Filter.pred_ := Filter.pred_ st;
     Filter.next_iter_ := List.rev (Filter.next_iter_ st) |}.

(** ** Products, sums and collections of Options (option.h) *)

Section FromIterator.
Context {St T : Type}.

(** The iterator handed to [from_product], [from_sum] or [from_iter]: its
    items are Options. *)
Variable inner_next : Next St (option T).

(** [IterUntilNone::next()] of [from_product_impl] and [from_sum_impl].  The
    members [iter_] and [found_none_] are references to the caller's
    iterator and flag, which make up the state. *)
Definition IterUntilNone_next : Next (St * bool) T :=
  fun '(iter_, found_none_) =>
    '(next, iter_) ← inner_next iter_;
    match next with
    | Some out =>
        Some (out, (iter_, match out with
                           | None => true
                           | Some _ => found_none_
                           end))
    | None => Some (None, (iter_, found_none_))
    end.

(** Modelled from the spec: [IteratorBase::product()] and [sum()], which
    are not among the sources: [Product<T>] and [Sum<T>] of a payload type
    combine, from the neutral element on, the items the iterator returns
    until it returns [None]. *)
Definition accumulate (unit_T : T) (op : T -> T -> T) {S} (fuel : nat)
    (next : Next S T) (s : S) : option (T * S) :=
  '(items, s') ← drain fuel next s;
  Some (fold_left op items unit_T, s').

Variable one zero : T.
Variable mul add : T -> T -> T.

(** [from_product_impl(it)]: the returned Option and the iterator after the
    call. *)
Definition from_product_impl (fuel : nat) (it : St)
    : option (option T * St) :=
  let found_none := false in
  '(p, (it, found_none)) ←
    accumulate one mul fuel IterUntilNone_next (it, found_none);
  let out := Some p in
  let out := if found_none : bool then None else out in
  Some (out, it).

(** [from_sum_impl(it)]. *)
Definition from_sum_impl (fuel : nat) (it : St) : option (option T * St) :=
  let found_none := false in
  '(p, (it, found_none)) ←
    accumulate zero add fuel IterUntilNone_next (it, found_none);
  let out := Some p in
  let out := if found_none : bool then None else out in
  Some (out, it).

(** [UntilNoneIter::next()] of [FromIteratorImpl<Option<T>>::from_iter]. *)
Definition UntilNoneIter_next : Next (St * bool) T :=
  fun '(iter, found_none) =>
    '(item, iter) ← inner_next iter;
    match item with
    | Some inner =>
        if found_none : bool then Some (None, (iter, found_none))
        else Some (inner, (iter, match inner with
                                 | None => true
                                 | Some _ => false
                                 end))
    | None => Some (None, (iter, found_none))
    end.

(** [FromIteratorImpl<Option<C>>::from_iter(option_iter)] for an argument
    that is an iterator itself ([into_iter()] gives back the same object);
    [collect_C] is modelled from the spec: [sus::iter::from_iter<C>], which
    is not among the sources, builds the container from the items the
    iterator returns until it returns [None]. *)
Definition from_iter {C} (collect_C : list T -> C) (fuel : nat)
    (option_iter : St) : option (option C * St) :=
  let found_none := false in
  '(items, (iter, found_none)) ←
    drain fuel UntilNoneIter_next (option_iter, found_none);
  let collected := collect_C items in
  Some (if found_none : bool then None else Some collected, iter).

End FromIterator.

End iter.

(* ===================================================================== *)
(** * Properties of the integer base-10 logarithm                         *)
(* ===================================================================== *)

Module Int_log10_Proofs.
Import int_log10.
Local Open Scope Z_scope.

Ltac euclid := Z.to_euclidean_division_equations; lia.

Lemma constants :
  C1 = 393206 /\ C2 = 524188 /\ C3 = 916504 /\ C4 = 514288.
Proof. repeat split; reflexivity. Qed.

Lemma add32_small a b :
  0 <= a + b < 2 ^ 32 -> add32 a b = a + b.
Proof. intros H. unfold add32, wrap32. apply Z.mod_small. exact H. Qed.

(** Shifting right by 17 commutes with the bitwise operations, so only the
    bits above the low 17 of each of the four sums matter. *)
Lemma top_bits a b c d :
  Z.shiftr (Z.lxor (Z.land a b) (Z.land c d)) 17 =
  Z.lxor (Z.land (a / 131072) (b / 131072)) (Z.land (c / 131072) (d / 131072)).
Proof.
  rewrite Z.shiftr_lxor, !Z.shiftr_land, !Z.shiftr_div_pow2 by lia.
  reflexivity.
Qed.

(** The four columns "+c1 +c2 +c3 +c4" of the table in the source. *)
Ltac top_bits_are val q1 q2 q3 q4 :=
  replace ((val + 393206) / 131072) with q1 by euclid;
  replace ((val + 524188) / 131072) with q2 by euclid;
  replace ((val + 916504) / 131072) with q3 by euclid;
  replace ((val + 514288) / 131072) with q4 by euclid;
  reflexivity.

Lemma less_than_5_cases val :
  0 < val < 100000 ->
  (val < 10 /\ less_than_5 val = 0) \/
  (10 <= val < 100 /\ less_than_5 val = 1) \/
  (100 <= val < 1000 /\ less_than_5 val = 2) \/
  (1000 <= val < 10000 /\ less_than_5 val = 3) \/
  (10000 <= val /\ less_than_5 val = 4).
Proof.
  intros Hval. unfold less_than_5.
  destruct constants as (-> & -> & -> & ->).
  rewrite !add32_small by (change (2 ^ 32) with 4294967296; lia).
  rewrite top_bits.
  destruct (Z_lt_ge_dec val 10) as [H10|H10];
    [|destruct (Z_lt_ge_dec val 100) as [H100|H100];
      [|destruct (Z_lt_ge_dec val 1000) as [H1000|H1000];
        [|destruct (Z_lt_ge_dec val 10000) as [H10000|H10000]]]].
  - left. split; [lia|]. top_bits_are val 2 3 6 3.
  - right; left. split; [lia|]. top_bits_are val 3 3 6 3.
  - right; right; left. split; [lia|]. top_bits_are val 3 4 6 3.
  - right; right; right; left. split; [lia|]. top_bits_are val 3 4 7 3.
  - right; right; right; right. split; [lia|]. top_bits_are val 3 4 7 4.
Qed.

Lemma less_than_5_floor val :
  0 < val < 100000 -> is_floor_log10 val (less_than_5 val).
Proof.
  intros H. unfold is_floor_log10.
  destruct (less_than_5_cases val H)
    as [[? ->]|[[? ->]|[[? ->]|[[? ->]|[? ->]]]]];
    cbn; lia.
Qed.

Lemma u32_cases v :
  1 <= v <= u32_max ->
  u32 v = if 100000 <=? v then 5 + less_than_5 (v / 100000) else less_than_5 v.
Proof.
  intros H. unfold u32, u32_max in *.
  destruct (Z.leb_spec 100000 v) as [Hge|Hlt].
  - assert (Hq : 0 < v / 100000 < 100000) by euclid.
    destruct (less_than_5_cases _ Hq)
      as [[? ->]|[[? ->]|[[? ->]|[[? ->]|[? ->]]]]]; reflexivity.
  - assert (Hq : 0 < v < 100000) by lia.
    destruct (less_than_5_cases _ Hq)
      as [[? ->]|[[? ->]|[[? ->]|[[? ->]|[? ->]]]]]; reflexivity.
Qed.

Lemma u32_floor v :
  1 <= v <= u32_max -> is_floor_log10 v (u32 v).
Proof.
  intros H. rewrite u32_cases by exact H. unfold u32_max in H.
  destruct (Z.leb_spec 100000 v) as [Hge|Hlt].
  - assert (Hq : 0 < v / 100000 < 100000) by euclid.
    unfold is_floor_log10.
    destruct (less_than_5_cases _ Hq)
      as [[? ->]|[[? ->]|[[? ->]|[[? ->]|[? ->]]]]]; cbn; euclid.
  - apply less_than_5_floor. lia.
Qed.

Lemma floor_log10_unique v r r' :
  is_floor_log10 v r -> is_floor_log10 v r' -> r = r'.
Proof.
  intros (Hr & Hlo & Hhi) (Hr' & Hlo' & Hhi').
  destruct (Z.lt_trichotomy r r') as [Hlt|[Heq|Hgt]]; [|exact Heq|].
  - assert (10 ^ (r + 1) <= 10 ^ r') by (apply Z.pow_le_mono_r; lia). lia.
  - assert (10 ^ (r' + 1) <= 10 ^ r) by (apply Z.pow_le_mono_r; lia). lia.
Qed.

Lemma decimal_digits_fuel_floor fuel v :
  0 < v < 10 ^ Z.of_nat fuel ->
  is_floor_log10 v (decimal_digits_fuel fuel v - 1).
Proof.
  revert v. induction fuel as [|fuel IH]; intros v Hv.
  - cbn in Hv. lia.
  - cbn [decimal_digits_fuel].
    destruct (Z.ltb_spec v 10) as [Hlt|Hge].
    + unfold is_floor_log10. cbn. lia.
    + rewrite Nat2Z.inj_succ, Z.pow_succ_r in Hv by lia.
      assert (Hq : 0 < v / 10 < 10 ^ Z.of_nat fuel) by euclid.
      destruct (IH _ Hq) as (Hr & Hlo & Hhi).
      unfold is_floor_log10.
      replace (1 + decimal_digits_fuel fuel (v / 10) - 1)
        with (Z.succ (decimal_digits_fuel fuel (v / 10) - 1)) by lia.
      replace (Z.succ (decimal_digits_fuel fuel (v / 10) - 1) + 1)
        with (Z.succ (decimal_digits_fuel fuel (v / 10) - 1 + 1)) by lia.
      rewrite !Z.pow_succ_r by lia.
      split; [lia|]. euclid.
Qed.

(** C10: for every [uint32_t] value [v] with [1 <= v <= 4294967295],
    [int_log10::u32(v)] is the number of decimal digits of [v] minus one,
    that is [floor(log10(v))]: [10^(u32 v) <= v < 10^(u32 v + 1)]; and the
    branchless helper [less_than_5] returns [floor(log10(val))] for every
    [val] with [0 < val < 100000]. *)
Theorem u32_is_floor_log10 v val :
  1 <= v <= u32_max ->
  0 < val < 100000 ->
  (is_floor_log10 v (u32 v) /\ u32 v = decimal_digits v - 1) /\
  is_floor_log10 val (less_than_5 val).
Proof.
  intros H Hval. split; [split|].
  - apply u32_floor; exact H.
  - apply (floor_log10_unique v); [apply u32_floor; exact H|].
    apply decimal_digits_fuel_floor. unfold u32_max in H. cbn. lia.
  - apply less_than_5_floor; exact Hval.
Qed.

Lemma u32_is_floor_log10_witness :
  (1 <= 4294967295 <= u32_max /\ 0 < 99999 < 100000) /\
  (is_floor_log10 4294967295 (u32 4294967295) /\
   u32 4294967295 = decimal_digits 4294967295 - 1) /\
  is_floor_log10 99999 (less_than_5 99999).
Proof.
  split; [unfold u32_max; lia|].
  apply (u32_is_floor_log10 4294967295 99999); unfold u32_max; lia.
Defined.

Example u32_samples :
  u32 1 = 0 /\ u32 9 = 0 /\ u32 10 = 1 /\ u32 99999 = 4 /\ u32 100000 = 5 /\
  u32 999999999 = 8 /\ u32 1000000000 = 9 /\ u32 4294967295 = 9.
Proof. repeat split; reflexivity. Qed.

End Int_log10_Proofs.

(* ===================================================================== *)
(** * Properties of the Choice storage union                              *)
(* ===================================================================== *)

Module Choice_Proofs.
Import choice_storage.

Section Proofs.
Context {V : Type}.
Variable tuple_eq : V -> V -> bool.
Variable strong_order : V -> V -> strong_ordering.
Variable weak_order : V -> V -> weak_ordering.
Variable partial_order : V -> V -> partial_ordering.

Lemma eqb_live I : Nat.eqb (I + 0) I = true.
Proof. rewrite Nat.add_0_r. apply Nat.eqb_refl. Qed.

Lemma eqb_deeper I k : Nat.eqb (I + S k) I = false.
Proof. apply Nat.eqb_neq. lia. Qed.

Lemma find_succ_inv k (s t : Storage V) :
  find_choice_storage V (S k) s = in_lifetime t ->
  exists m, s = more_ m /\ find_choice_storage V k m = in_lifetime t.
Proof.
  cbn. destruct s as [|v|m]; intros H; try discriminate. eauto.
Qed.

(** What [construct_choice_storage] builds is found again by
    [find_choice_storage]: a freshly constructed Choice is live at the
    alternative it was constructed into. *)
Lemma find_constructed index (k : Storage V -> Storage V) :
  forall s0,
    find_choice_storage V index (construct_choice_storage V index k s0) =
    in_lifetime (k (match index with O => s0 | S _ => inactive end)).
Proof.
  induction index as [|index IH]; intros s0; [reflexivity|].
  cbn. rewrite IH. destruct index; reflexivity.
Qed.

(** [construct_choice_storage<I>] followed by [construct(value)] makes
    [tuple_] of level [I] the live member. *)
Lemma find_constructed_value index (value : V) :
  find_choice_storage V index
    (construct_choice_storage V index (construct V value) inactive) =
  in_lifetime (live_level V Tuple1 value).
Proof. rewrite find_constructed. reflexivity. Qed.

(** [activate_for_construct] with an index in range activates the same
    chain of [more_] members. *)
Lemma activate_for_construct_chain rest :
  forall e I k el,
    (e :: rest) !! k = Some el ->
    activate_for_construct V I e rest (I + k) inactive =
    Ret (construct_choice_storage V k (fun s => s) inactive).
Proof.
  induction rest as [|e' rest' IH]; intros e I k el Hel.
  - destruct k as [|k]; [|destruct k; discriminate].
    cbn. rewrite eqb_live. reflexivity.
  - destruct k as [|k].
    + cbn. rewrite eqb_live. reflexivity.
    + change ((e :: e' :: rest') !! S k) with ((e' :: rest') !! k) in Hel.
      cbn [activate_for_construct construct_choice_storage].
      rewrite eqb_deeper. cbn [negb].
      replace (I + S k) with (S I + k) by lia.
      rewrite (IH e' (S I) k el Hel). reflexivity.
Qed.

(** ** destroy *)

Lemma destroy_live rest :
  forall e I k el payload (s : Storage V),
    (e :: rest) !! k = Some el ->
    find_choice_storage V k s = in_lifetime (live_level V el payload) ->
    destroy V I e rest (I + k) s = Ret (expected_trace el I k, inactive).
Proof.
  induction rest as [|e' rest' IH]; intros e I k el payload s Hel Hfind.
  - destruct k as [|k]; [|destruct k; discriminate].
    cbn in Hel, Hfind. injection Hel as <-. injection Hfind as ->.
    cbn [destroy]. rewrite eqb_live. unfold expected_trace.
    rewrite Nat.add_0_r. destruct e; reflexivity.
  - destruct k as [|k].
    + cbn in Hel, Hfind. injection Hel as <-. injection Hfind as ->.
      cbn [destroy]. rewrite eqb_live. unfold expected_trace.
      rewrite Nat.add_0_r. destruct e; reflexivity.
    + apply find_succ_inv in Hfind as (m & -> & Hfind).
      change ((e :: e' :: rest') !! S k) with ((e' :: rest') !! k) in Hel.
      cbn [destroy]. rewrite eqb_deeper. cbn [negb].
      replace (I + S k) with (S I + k) by lia.
      rewrite (IH e' (S I) k el payload m Hel Hfind).
      unfold expected_trace. cbn [unwind].
      replace (I + S k) with (S I + k) by lia.
      rewrite app_assoc. destruct e; reflexivity.
Qed.

Lemma payload_destroys_app tr tr' :
  payload_destroys (tr ++ tr') = payload_destroys tr ++ payload_destroys tr'.
Proof. unfold payload_destroys. apply flat_map_app. Qed.

Lemma payload_destroys_unwind I k : payload_destroys (unwind I k) = [].
Proof.
  revert I. induction k as [|k IH]; intros I; [reflexivity|].
  cbn [unwind]. rewrite payload_destroys_app, IH. reflexivity.
Qed.

Lemma payload_destroys_expected el I k :
  payload_destroys (expected_trace el I k) =
  expected_payload_destroys el (I + k).
Proof.
  unfold expected_trace.
  rewrite payload_destroys_app, payload_destroys_unwind, app_nil_r.
  destruct el; reflexivity.
Qed.

(** An index past the last alternative is caught by the [sus::check] of the
    last level, provided the chain has [more_] active all the way down. *)
Lemma destroy_out_of_range rest :
  forall e I k (s : Storage V),
    length rest < k ->
    find_choice_storage V (length rest) s <> out_of_lifetime ->
    destroy V I e rest (I + k) s = Panic.
Proof.
  induction rest as [|e' rest' IH]; intros e I k s Hk Hchain.
  - cbn [destroy]. replace (Nat.eqb (I + k) I) with false; [reflexivity|].
    symmetry. apply Nat.eqb_neq. cbn in Hk. lia.
  - destruct k as [|k]; [cbn in Hk; lia|].
    cbn [length] in Hk, Hchain. cbn [destroy]. rewrite eqb_deeper. cbn [negb].
    destruct s as [|v|m]; try (cbn in Hchain; congruence).
    replace (I + S k) with (S I + k) by lia.
    rewrite (IH e' (S I) k m); [destruct e; reflexivity|lia|exact Hchain].
Qed.

(** C3: for every Choice storage whose live alternative is [index],
    [destroy(index)] started at level 0 returns (it neither panics nor
    touches a member outside its lifetime), walks through [more_] down to
    level [index], runs the payload destructor of level [index] exactly once
    and the payload destructor of no other level, and leaves no member
    alive; an alternative without values ([Nothing]) has no payload, and for
    it no payload destructor runs at all. *)
Theorem destroy_live_alternative_once e rest index el payload (s : Storage V) :
  (e :: rest) !! index = Some el ->
  find_choice_storage V index s = in_lifetime (live_level V el payload) ->
  exists tr,
    destroy V 0 e rest index s = Ret (tr, inactive) /\
    tr = map DestroyTuple (expected_payload_destroys el index) ++ unwind 0 index /\
    payload_destroys tr = expected_payload_destroys el index.
Proof.
  intros Hel Hfind. exists (expected_trace el 0 index).
  split; [|split; [reflexivity|]].
  - exact (destroy_live rest e 0 index el payload s Hel Hfind).
  - apply (payload_destroys_expected el 0 index).
Qed.

(** ** Comparisons *)

Ltac live_here Hel Hs Ho :=
  cbn in Hel, Hs, Ho; injection Hel as <-; injection Hs as ->;
  injection Ho as ->.

Ltac live_deeper Hel Hs Ho m m' :=
  apply find_succ_inv in Hs as (m & -> & Hs);
  apply find_succ_inv in Ho as (m' & -> & Ho);
  match type of Hel with
  | (?e :: ?r) !! S ?k = _ => change ((e :: r) !! S k) with (r !! k) in Hel
  end.

Lemma eq_live rest :
  forall e I k el v w (s other : Storage V),
    (e :: rest) !! k = Some el ->
    find_choice_storage V k s = in_lifetime (live_level V el v) ->
    find_choice_storage V k other = in_lifetime (live_level V el w) ->
    eq V tuple_eq I e rest (I + k) s other =
    Ret (payload_result el tuple_eq true v w).
Proof.
  induction rest as [|e' rest' IH]; intros e I k el v w s other Hel Hs Ho.
  - destruct k as [|k]; [|destruct k; discriminate].
    live_here Hel Hs Ho. cbn [eq]. rewrite eqb_live. destruct e; reflexivity.
  - destruct k as [|k].
    + live_here Hel Hs Ho. cbn [eq]. rewrite eqb_live. destruct e; reflexivity.
    + live_deeper Hel Hs Ho m m'.
      cbn [eq]. rewrite eqb_deeper. cbn [with_more].
      replace (I + S k) with (S I + k) by lia.
      exact (IH e' (S I) k el v w m m' Hel Hs Ho).
Qed.

Lemma weak_ord_live rest :
  forall e I k el v w (s other : Storage V),
    (e :: rest) !! k = Some el ->
    find_choice_storage V k s = in_lifetime (live_level V el v) ->
    find_choice_storage V k other = in_lifetime (live_level V el w) ->
    weak_ord V weak_order I e rest (I + k) s other =
    Ret (payload_result el weak_order weak_equivalent v w).
Proof.
  induction rest as [|e' rest' IH]; intros e I k el v w s other Hel Hs Ho.
  - destruct k as [|k]; [|destruct k; discriminate].
    live_here Hel Hs Ho. cbn [weak_ord]. rewrite eqb_live.
    destruct e; reflexivity.
  - destruct k as [|k].
    + live_here Hel Hs Ho. cbn [weak_ord]. rewrite eqb_live.
      destruct e; reflexivity.
    + live_deeper Hel Hs Ho m m'.
      cbn [weak_ord]. rewrite eqb_deeper. cbn [with_more].
      replace (I + S k) with (S I + k) by lia.
      exact (IH e' (S I) k el v w m m' Hel Hs Ho).
Qed.

Lemma partial_ord_live rest :
  forall e I k el v w (s other : Storage V),
    (e :: rest) !! k = Some el ->
    find_choice_storage V k s = in_lifetime (live_level V el v) ->
    find_choice_storage V k other = in_lifetime (live_level V el w) ->
    partial_ord V partial_order I e rest (I + k) s other =
    Ret (payload_result el partial_order partial_equivalent v w).
Proof.
  induction rest as [|e' rest' IH]; intros e I k el v w s other Hel Hs Ho.
  - destruct k as [|k]; [|destruct k; discriminate].
    live_here Hel Hs Ho. cbn [partial_ord]. rewrite eqb_live.
    destruct e; reflexivity.
  - destruct k as [|k].
    + live_here Hel Hs Ho. cbn [partial_ord]. rewrite eqb_live.
      destruct e; reflexivity.
    + live_deeper Hel Hs Ho m m'.
      cbn [partial_ord]. rewrite eqb_deeper. cbn [with_more].
      replace (I + S k) with (S I + k) by lia.
      exact (IH e' (S I) k el v w m m' Hel Hs Ho).
Qed.

(** [strong_ord] reaches the live level in every chain for which it can be
    instantiated. *)
Lemma strong_ord_body_live rest :
  forall e I k el v w (s other : Storage V),
    (e :: rest) !! k = Some el ->
    strong_ord_instantiable e rest = true ->
    find_choice_storage V k s = in_lifetime (live_level V el v) ->
    find_choice_storage V k other = in_lifetime (live_level V el w) ->
    strong_ord_body V strong_order I e rest (I + k) s other =
    Ret (payload_result el strong_order strong_equivalent v w).
Proof.
  induction rest as [|e' rest' IH]; intros e I k el v w s other Hel Hinst Hs Ho.
  - destruct k as [|k]; [|destruct k; discriminate].
    live_here Hel Hs Ho. cbn [strong_ord_body]. rewrite eqb_live.
    destruct e; reflexivity.
  - destruct k as [|k].
    + live_here Hel Hs Ho. cbn [strong_ord_body]. rewrite eqb_live.
      destruct e; reflexivity.
    + live_deeper Hel Hs Ho m m'.
      cbn [strong_ord_body]. rewrite eqb_deeper.
      replace (I + S k) with (S I + k) by lia.
      destruct e; cbn [strong_ord_instantiable] in Hinst;
        [| |discriminate Hinst]; cbn [with_more];
        exact (IH e' (S I) k el v w m m' Hel Hinst Hs Ho).
Qed.

Lemma strong_ord_live e rest index el v w (s other : Storage V) :
  (e :: rest) !! index = Some el ->
  strong_ord_instantiable e rest = true ->
  find_choice_storage V index s = in_lifetime (live_level V el v) ->
  find_choice_storage V index other = in_lifetime (live_level V el w) ->
  strong_ord V strong_order 0 e rest index s other =
  Ret (payload_result el strong_order strong_equivalent v w).
Proof.
  intros Hel Hinst Hs Ho. unfold strong_ord. rewrite Hinst.
  exact (strong_ord_body_live rest e 0 index el v w s other Hel Hinst Hs Ho).
Qed.

(** An alternative of several values that is not the last one makes
    [strong_ord] impossible to instantiate for the whole chain. *)
Lemma multi_value_not_instantiable rest :
  forall e j,
    (e :: rest) !! j = Some TupleN -> j < length rest ->
    strong_ord_instantiable e rest = false.
Proof.
  induction rest as [|e' rest' IH]; intros e j Hmulti Hj; [cbn in Hj; lia|].
  destruct j as [|j].
  - cbn in Hmulti. injection Hmulti as ->. reflexivity.
  - change ((e :: e' :: rest') !! S j) with ((e' :: rest') !! j) in Hmulti.
    cbn [length] in Hj. cbn [strong_ord_instantiable].
    destruct e; [| |reflexivity]; apply (IH e' j Hmulti); lia.
Qed.

Lemma strong_ord_no_member e rest j I index (s other : Storage V) :
  (e :: rest) !! j = Some TupleN -> j < length rest ->
  strong_ord V strong_order I e rest index s other = NoMember.
Proof.
  intros Hmulti Hj. unfold strong_ord.
  rewrite (multi_value_not_instantiable rest e j Hmulti Hj). reflexivity.
Qed.

(** Even without the instantiation of the whole body, the run of
    [strong_ord_body] stops at the missing member when the live alternative
    comes after one with several values. *)
Lemma strong_ord_body_no_member rest :
  forall e I k j el v w (s other : Storage V),
    (e :: rest) !! k = Some el ->
    j < k -> (e :: rest) !! j = Some TupleN ->
    find_choice_storage V k s = in_lifetime (live_level V el v) ->
    find_choice_storage V k other = in_lifetime (live_level V el w) ->
    strong_ord_body V strong_order I e rest (I + k) s other = NoMember.
Proof.
  induction rest as [|e' rest' IH];
    intros e I k j el v w s other Hel Hj Hmulti Hs Ho.
  - destruct k as [|k]; [lia|destruct k; discriminate].
  - destruct k as [|k]; [lia|].
    live_deeper Hel Hs Ho m m'.
    cbn [strong_ord_body]. rewrite eqb_deeper.
    replace (I + S k) with (S I + k) by lia.
    destruct j as [|j].
    + cbn in Hmulti. injection Hmulti as ->. reflexivity.
    + change ((e :: e' :: rest') !! S j) with ((e' :: rest') !! j) in Hmulti.
      assert (Hj' : j < k) by lia.
      destruct e; cbn [with_more]; try reflexivity;
        exact (IH e' (S I) k j el v w m m' Hel Hj' Hmulti Hs Ho).
Qed.

End Proofs.

Lemma destroy_live_alternative_once_witness :
  ((Nothing :: sample_rest) !! 2 = Some TupleN /\
   find_choice_storage Z 2 (sample_live 2 TupleN 7) =
     in_lifetime (live_level Z TupleN 7%Z)) /\
  exists tr,
    destroy Z 0 Nothing sample_rest 2 (sample_live 2 TupleN 7) =
      Ret (tr, inactive) /\
    tr = map DestroyTuple (expected_payload_destroys TupleN 2) ++ unwind 0 2 /\
    payload_destroys tr = expected_payload_destroys TupleN 2.
Proof.
  split; [split; reflexivity|].
  apply (destroy_live_alternative_once Nothing sample_rest 2 TupleN 7%Z);
    reflexivity.
Defined.

Example destroy_sample_trace :
  destroy Z 0 Nothing sample_rest 2 (sample_live 2 TupleN 7) =
  Ret ([DestroyTuple 2; DestroyMore 2; DestroyMore 1], inactive).
Proof. reflexivity. Qed.

(** C2: a Choice with the alternatives [Tuple<A, B>] and [Tuple<C>] that is
    live at alternative 1 on both sides, with the payloads 3 and 7.
    [strong_ord(1, other)] has to return the [std::strong_order] of the two
    payloads of level 1, here [less]; the body of level 0 forwards to
    [more_.ord(...)], which does not exist, so no value is produced, neither
    by the function nor by a run of its body.  [weak_ord] and [eq] at the
    same input forward to the member of their own name and return the
    comparison of the payloads. *)
Example strong_ord_after_multi_value_alternative :
  strong_ord Z Z_strong_order 0 TupleN [Tuple1] 1
    (sample_live 1 Tuple1 3) (sample_live 1 Tuple1 7) = NoMember /\
  strong_ord_body Z Z_strong_order 0 TupleN [Tuple1] 1
    (sample_live 1 Tuple1 3) (sample_live 1 Tuple1 7) = NoMember /\
  Z_strong_order 3 7 = strong_less /\
  weak_ord Z Z_weak_order 0 TupleN [Tuple1] 1
    (sample_live 1 Tuple1 3) (sample_live 1 Tuple1 7) = Ret weak_less /\
  eq Z Z.eqb 0 TupleN [Tuple1] 1
    (sample_live 1 Tuple1 3) (sample_live 1 Tuple1 7) = Ret false.
Proof. repeat split; reflexivity. Qed.

(** Without an alternative of several values in front, [strong_ord] does
    return the order of the payloads. *)
Example strong_ord_sample :
  strong_ord Z Z_strong_order 0 Nothing sample_rest 2
    (sample_live 2 TupleN 3) (sample_live 2 TupleN 7) = Ret strong_less.
Proof. reflexivity. Qed.

End Choice_Proofs.

(* ===================================================================== *)
(** * Properties of Option                                                *)
(* ===================================================================== *)

Module Option_Proofs.
Import option.

Ltac unfold_ops :=
  unfold filter, take, clone, clone_from, clone_into, clone_value,
    copy_ctor, move_ctor, copy_assign, move_assign, trivial_copy,
    unwrap, expect, unwrap_or, unwrap_or_else, unwrap_or_default,
    unwrap_unchecked, with_, Option_some, Option_none, dtor,
    as_value_mut_write, Option_eq, Option_cmp, as_value_unchecked,
    is_some, is_none,
    set_some_from, state, val, set_none, set_some, take_and_set_none,
    construct_from_none, destroy, check, check_with_message,
    bind, ret, load, store, free, emit, undefined.

Ltac lookups :=
  repeat first
    [ progress cbn [objs log State_eqb andb negb]
    | rewrite lookup_insert_eq
    | rewrite lookup_insert_ne by congruence
    | match goal with
      | H : objs ?w !! ?a = _ |- context [objs ?w !! ?a] => rewrite H
      end ].

Ltac run := unfold_ops; lookups.

Section Proofs.
Context {T : Type}.
Variable clone_T : T -> T.
Variable clone_from_T : T -> T -> T.
Variable default_T : T.
Variable traits : Traits.

Implicit Types (w : world T) (a this result o : addr) (v : T).

Lemma bind_Ret {A B} (m : M T A) (k : A -> M T B) w x w' :
  m w = Ret x w' -> bind T m k w = k x w'.
Proof. intros H. unfold bind. rewrite H. reflexivity. Qed.

Lemma state_live w a s :
  objs w !! a = Some s ->
  state T a w = Ret (match s with Some _ => Some_ | None => None_ end) w.
Proof. intros H. run. reflexivity. Qed.

Lemma take_and_set_none_some w a v :
  objs w !! a = Some (Some v) ->
  take_and_set_none T a w =
  Ret v (World (<[a := None]> (objs w)) (log w ++ [EvDestroy a])).
Proof. intros H. run. reflexivity. Qed.

Lemma set_none_some w a v :
  objs w !! a = Some (Some v) ->
  set_none T a w =
  Ret tt (World (<[a := None]> (objs w)) (log w ++ [EvDestroy a])).
Proof. intros H. run. reflexivity. Qed.

(** The storage functions that need a live payload are undefined without
    one; the checked entry points never reach them in state [None]. *)
Lemma take_and_set_none_none w a :
  objs w !! a = Some None -> take_and_set_none T a w = Undefined.
Proof. intros H. run. reflexivity. Qed.

(** Destroying an Option in state [None] runs no payload destructor. *)
Lemma dtor_none w a :
  objs w !! a = Some None ->
  dtor T traits a w = Ret tt (World (delete a (objs w)) (log w)).
Proof.
  intros H. unfold dtor. destruct (trivial_dtor traits); [reflexivity|].
  run. reflexivity.
Qed.

(** Destroying an Option in state [Some] runs the payload destructor once,
    unless the payload type is trivially destructible. *)
Lemma dtor_some w a v :
  objs w !! a = Some (Some v) ->
  dtor T traits a w =
  Ret tt (World (delete a (objs w))
                (log w ++ if trivial_dtor traits then [] else [EvDestroy a])).
Proof.
  intros H. unfold dtor. destruct (trivial_dtor traits).
  - run. rewrite app_nil_r. reflexivity.
  - run. reflexivity.
Qed.

(** The hand-written copy constructor reads the source and leaves it as it
    was, in contrast to the move constructor. *)
Lemma copy_ctor_keeps_source w this o s :
  this <> o ->
  objs w !! o = Some s ->
  exists w', copy_ctor T traits this o w = Ret tt w' /\
             objs w' !! this = Some s /\ objs w' !! o = Some s.
Proof.
  intros Hne Ho. unfold copy_ctor. destruct (trivial_copy_ctor traits).
  - eexists. split; [run; reflexivity|]. split; lookups; reflexivity.
  - destruct s;
      (eexists; split; [run; reflexivity|]; split; lookups; reflexivity).
Qed.

Lemma dtors_of_none w this result :
  this <> result ->
  objs w !! this = Some None -> objs w !! result = Some None ->
  exists w',
    bind T (dtor T traits result) (fun _ => dtor T traits this) w = Ret tt w' /\
    log w' = log w.
Proof.
  intros Hne H1 H2. eexists. split.
  - erewrite bind_Ret by (apply dtor_none; exact H2).
    apply dtor_none. lookups.
    rewrite lookup_delete_ne by congruence. exact H1.
  - reflexivity.
Qed.


(** C4: for an Option holding [Some(v)] and a predicate with [p(v) == false],
    the consuming [filter(p) &&] calls [p] on [v], destroys the payload
    exactly once and returns an Option in state [None], the source being
    [None] as well; for an Option in state [None] it returns [None] and does
    not call [p].  The destructors of the result and of the source that
    follow destroy no payload any more. *)
Theorem filter_reject_destroys_once w this result (p : T -> bool) s :
  this <> result ->
  objs w !! this = Some s ->
  (forall v, s = Some v -> p v = false) ->
  exists w',
    filter T this result p w = Ret tt w' /\
    objs w' !! this = Some None /\
    objs w' !! result = Some None /\
    log w' = log w ++ match s with
                      | Some v => [EvCall v; EvDestroy this]
                      | None => []
                      end /\
    exists w'',
      bind T (dtor T traits result) (fun _ => dtor T traits this) w' = Ret tt w'' /\
      log w'' = log w'.
Proof.
  intros Hne Hthis Hrej.
  destruct s as [v|].
  - specialize (Hrej v eq_refl).
    eexists. split.
    { run. rewrite Hrej. lookups. reflexivity. }
    repeat split; [lookups; reflexivity ..| |].
    + lookups. rewrite <- app_assoc. reflexivity.
    + apply dtors_of_none; [exact Hne|lookups; reflexivity ..].
  - eexists. split.
    { run. reflexivity. }
    repeat split; [lookups; reflexivity ..| |].
    + lookups. rewrite app_nil_r. reflexivity.
    + apply dtors_of_none; [exact Hne|lookups; reflexivity ..].
Qed.

(** C5: on an Option in state [None], [unwrap()] and [expect(msg)] are fatal
    (the latter with the message) and return nothing, while [unwrap_or(d)]
    returns [d], [unwrap_or_else(f)] returns [f()] and [unwrap_or_default()]
    returns [T()]; on an Option holding [Some(v)] all five return [v]. *)
Theorem unwrap_family w this s msg d (f : unit -> T) :
  objs w !! this = Some s ->
  match s with
  | None =>
      unwrap T this w = Panic None /\
      expect T this msg w = Panic (Some msg) /\
      unwrap_or T this d w = Ret d w /\
      unwrap_or_else T this f w = Ret (f tt) w /\
      unwrap_or_default T default_T this w = Ret default_T w
  | Some v =>
      let w' := World (<[this := None]> (objs w)) (log w ++ [EvDestroy this]) in
      unwrap T this w = Ret v w' /\
      expect T this msg w = Ret v w' /\
      unwrap_or T this d w = Ret v w' /\
      unwrap_or_else T this f w = Ret v w' /\
      unwrap_or_default T default_T this w = Ret v w'
  end.
Proof.
  intros Hthis. destruct s as [v|]; cbn zeta; repeat split; run; reflexivity.
Qed.

(** C7: constructing an Option with [v] and taking the value out again, by
    [unwrap], [expect], [unwrap_or], [unwrap_unchecked] or [take], yields
    [v], and the Option is in state [None] right after. *)
Theorem with_then_take_roundtrip w this result v msg d :
  this <> result ->
  round_trips T this v w (unwrap T this) /\
  round_trips T this v w (expect T this msg) /\
  round_trips T this v w (unwrap_or T this d) /\
  round_trips T this v w (unwrap_unchecked T this) /\
  (exists w', bind T (with_ T this v) (fun _ => take T this result) w = Ret tt w' /\
              objs w' !! result = Some (Some v) /\
              objs w' !! this = Some None).
Proof.
  intros Hne. unfold round_trips.
  repeat split;
    try (eexists; split; [run; reflexivity|lookups; reflexivity]).
  eexists. split; [run; reflexivity|]. split; lookups; reflexivity.
Qed.



(** C6: for a payload type with a strong ordering, comparing two Options
    gives [None < Some(x)], [Some(x) > None], [None] equivalent (and equal)
    to [None], and for two [Some] the comparison of the payloads; the
    operands are left as they were. *)
Theorem option_ordering_none_first
    (T_eq : T -> T -> bool) (T_cmp : T -> T -> choice_storage.strong_ordering)
    w l r sl sr :
  objs w !! l = Some sl ->
  objs w !! r = Some sr ->
  Option_cmp T T_cmp l r w =
    Ret (match sl, sr with
         | None, Some _ => choice_storage.strong_less
         | Some _, None => choice_storage.strong_greater
         | None, None => choice_storage.strong_equivalent
         | Some x, Some y => T_cmp x y
         end) w /\
  Option_eq T T_eq l r w =
    Ret (match sl, sr with
         | None, None => true
         | Some x, Some y => T_eq x y
         | _, _ => false
         end) w.
Proof.
  intros Hl Hr. destruct sl, sr; split; run; reflexivity.
Qed.

End Proofs.

(** ** Concrete runs *)

Local Open Scope positive_scope.


Example move_of_trivial_payload_run :
  exists w',
    move_ctor Z trivial_traits 2 1 world_some5 = Ret tt w' /\
    objs w' !! 1 = Some (Some 5%Z) /\ objs w' !! 2 = Some (Some 5%Z).
Proof. eexists. split; [reflexivity|]. split; reflexivity. Qed.


Lemma filter_reject_destroys_once_witness :
  (1 <> 2 /\ objs world_some5 !! 1 = Some (Some 5%Z) /\
   (forall v, Some 5%Z = Some v -> Z.even v = false)) /\
  exists w',
    filter Z 1 2 Z.even world_some5 = Ret tt w' /\
    objs w' !! 1 = Some None /\
    objs w' !! 2 = Some None /\
    log w' = (log world_some5 ++ [EvCall 5%Z; EvDestroy 1])%list /\
    exists w'',
      bind Z (dtor Z nontrivial_traits 2) (fun _ => dtor Z nontrivial_traits 1) w'
        = Ret tt w'' /\
      log w'' = log w'.
Proof.
  assert (Hrej : forall v, Some 5%Z = Some v -> Z.even v = false).
  { intros v [= <-]. reflexivity. }
  split; [split; [discriminate|split; [reflexivity|exact Hrej]]|].
  apply (filter_reject_destroys_once nontrivial_traits world_some5 1 2 Z.even
           (Some 5%Z)); [discriminate|reflexivity|exact Hrej].
Defined.

Lemma unwrap_family_witness :
  objs world_some5_none !! 2 = Some None /\
  (unwrap Z 2 world_some5_none = Panic None /\
   expect Z 2 [Byte.x6e; Byte.x6f] world_some5_none =
     Panic (Some [Byte.x6e; Byte.x6f]) /\
   unwrap_or Z 2 7%Z world_some5_none = Ret 7%Z world_some5_none /\
   unwrap_or_else Z 2 (fun _ => 8%Z) world_some5_none = Ret 8%Z world_some5_none /\
   unwrap_or_default Z 0%Z 2 world_some5_none = Ret 0%Z world_some5_none).
Proof.
  split; [reflexivity|].
  apply (unwrap_family 0%Z world_some5_none 2 None [Byte.x6e; Byte.x6f] 7%Z
           (fun _ => 8%Z)).
  reflexivity.
Defined.

Lemma with_then_take_roundtrip_witness :
  1 <> 2 /\
  (round_trips Z 1 5%Z (World ∅ []) (unwrap Z 1) /\
   round_trips Z 1 5%Z (World ∅ []) (expect Z 1 []) /\
   round_trips Z 1 5%Z (World ∅ []) (unwrap_or Z 1 0%Z) /\
   round_trips Z 1 5%Z (World ∅ []) (unwrap_unchecked Z 1) /\
   (exists w', bind Z (with_ Z 1 5%Z) (fun _ => take Z 1 2) (World ∅ []) = Ret tt w' /\
               objs w' !! 2 = Some (Some 5%Z) /\
               objs w' !! 1 = Some None)).
Proof.
  split; [discriminate|].
  apply (with_then_take_roundtrip (World ∅ []) 1 2 5%Z [] 0%Z). discriminate.
Defined.



Example assign_of_trivially_assignable_payload_run :
  exists w',
    copy_assign Z trivially_assignable_traits 1 2 world_built = Ret tt w' /\
    objs w' !! 1 = Some None /\
    log w' = log world_built /\
    ~ balanced Z w'.
Proof.
  eexists. split; [reflexivity|]. split; [reflexivity|].
  split; [reflexivity|].
  intros Hbal. specialize (Hbal 1). vm_compute in Hbal. discriminate Hbal.
Qed.


Lemma option_ordering_none_first_witness :
  (objs world_some5_none !! 2 = Some None /\
   objs world_some5_none !! 1 = Some (Some 5%Z)) /\
  Option_cmp Z choice_storage.Z_strong_order 2 1 world_some5_none =
    Ret choice_storage.strong_less world_some5_none /\
  Option_eq Z Z.eqb 2 1 world_some5_none = Ret false world_some5_none.
Proof.
  split; [split; reflexivity|].
  apply (option_ordering_none_first Z.eqb choice_storage.Z_strong_order
           world_some5_none 2 1 None (Some 5%Z)); reflexivity.
Defined.

Example map_free_scenarios :
  (exists w', bind Z (with_ Z 1 5%Z) (fun _ => unwrap Z 1) (World ∅ []) = Ret 5%Z w') /\
  unwrap_or Z 2 7%Z world_some5_none = Ret 7%Z world_some5_none.
Proof. split; [eexists|]; reflexivity. Qed.

End Option_Proofs.

(* ===================================================================== *)
(** * Further properties of the integer base-10 logarithm                 *)
(* ===================================================================== *)

Module Int_log10_More.
Import int_log10.
Local Open Scope Z_scope.

Ltac euclid := Z.to_euclidean_division_equations; lia.

Lemma wrap32_small z : 0 <= z < 4294967296 -> wrap32 z = z.
Proof. intros H. unfold wrap32. apply Z.mod_small. exact H. Qed.

Lemma less_than_5_range val :
  0 < val < 100000 -> 0 <= less_than_5 val <= 4.
Proof.
  intros H.
  destruct (Int_log10_Proofs.less_than_5_cases val H)
    as [[? ->]|[[? ->]|[[? ->]|[[? ->]|[? ->]]]]]; lia.
Qed.

(** Stripping [k] digits shifts the logarithm by [k]. *)
Lemma floor_log10_strip v r k :
  0 < k -> 10 ^ k <= v ->
  is_floor_log10 (v / 10 ^ k) r -> is_floor_log10 v (k + r).
Proof.
  intros Hk Hv (Hr & Hlo & Hhi). unfold is_floor_log10.
  assert (Hp : 0 < 10 ^ k) by (apply Z.pow_pos_nonneg; lia).
  replace (k + r + 1) with (k + (r + 1)) by lia.
  rewrite (Z.pow_add_r 10 k r), (Z.pow_add_r 10 k (r + 1)) by lia.
  split; [lia|]. split.
  - apply Z.le_trans with (10 ^ k * (v / 10 ^ k)).
    + apply Z.mul_le_mono_nonneg_l; lia.
    + apply Z.mul_div_le. exact Hp.
  - apply Z.lt_le_trans with (10 ^ k * (v / 10 ^ k + 1)).
    + rewrite Z.mul_add_distr_l, Z.mul_1_r.
      pose proof (Z.mul_succ_div_gt v (10 ^ k) Hp). lia.
    + apply Z.mul_le_mono_nonneg_l; lia.
Qed.

Lemma u64_unfold v :
  1 <= v <= u64_max ->
  u64 v =
  if 10000000000 <=? v then
    if 100000 <=? v / 10000000000
    then 15 + less_than_5 (v / 10000000000 / 100000)
    else 10 + less_than_5 (v / 10000000000)
  else if 100000 <=? v
       then 5 + less_than_5 (v / 100000)
       else less_than_5 v.
Proof.
  intros H. unfold u64, u64_max in *.
  assert (Hadd : forall a b, 0 <= a -> 0 <= b <= 4 -> a <= 15 ->
                             add32 a b = a + b).
  { intros a b Ha Hb Ha'. apply Int_log10_Proofs.add32_small.
    change (2 ^ 32) with 4294967296. lia. }
  change (add32 0 10) with 10.
  destruct (Z.leb_spec 10000000000 v) as [H10|H10].
  - assert (Hq : 1 <= v / 10000000000 <= 1844674407) by euclid.
    destruct (Z.leb_spec 100000 (v / 10000000000)) as [H5|H5].
    + assert (Hq' : 0 < v / 10000000000 / 100000 < 100000) by euclid.
      change (add32 10 5) with 15.
      rewrite (wrap32_small (v / 10000000000 / 100000)) by lia.
      apply Hadd; [lia|apply less_than_5_range; exact Hq'|lia].
    + rewrite (wrap32_small (v / 10000000000)) by lia.
      apply Hadd; [lia|apply less_than_5_range; lia|lia].
  - destruct (Z.leb_spec 100000 v) as [H5|H5].
    + assert (Hq' : 0 < v / 100000 < 100000) by euclid.
      change (add32 0 5) with 5.
      rewrite (wrap32_small (v / 100000)) by lia.
      apply Hadd; [lia|apply less_than_5_range; exact Hq'|lia].
    + rewrite (wrap32_small v) by lia.
      apply (Hadd 0); [lia|apply less_than_5_range; lia|lia].
Qed.

(** X1: for every [uint64_t] value [v] with [1 <= v], [int_log10::u64(v)]
    is [floor(log10(v))], the number of decimal digits of [v] minus one. *)
Theorem u64_is_floor_log10 v :
  1 <= v <= u64_max ->
  is_floor_log10 v (u64 v) /\ u64 v = decimal_digits_fuel 20 v - 1.
Proof.
  intros H.
  assert (Hfloor : is_floor_log10 v (u64 v)).
  { rewrite u64_unfold by exact H. unfold u64_max in H.
    destruct (Z.leb_spec 10000000000 v) as [H10|H10].
    - assert (Hq : 1 <= v / 10000000000 <= 1844674407) by euclid.
      destruct (Z.leb_spec 100000 (v / 10000000000)) as [H5|H5].
      + assert (Hq' : 0 < v / 10000000000 / 100000 < 100000) by euclid.
        replace (15 + less_than_5 (v / 10000000000 / 100000))
          with (10 + (5 + less_than_5 (v / 10000000000 / 100000))) by lia.
        apply (floor_log10_strip v _ 10); [lia|exact H10|].
        change (10 ^ 10) with 10000000000.
        apply (floor_log10_strip (v / 10000000000) _ 5); [lia|exact H5|].
        change (10 ^ 5) with 100000.
        apply Int_log10_Proofs.less_than_5_floor. exact Hq'.
      + apply (floor_log10_strip v _ 10); [lia|exact H10|].
        change (10 ^ 10) with 10000000000.
        apply Int_log10_Proofs.less_than_5_floor. lia.
    - destruct (Z.leb_spec 100000 v) as [H5|H5].
      + assert (Hq' : 0 < v / 100000 < 100000) by euclid.
        apply (floor_log10_strip v _ 5); [lia|exact H5|].
        change (10 ^ 5) with 100000.
        apply Int_log10_Proofs.less_than_5_floor. exact Hq'.
      + apply Int_log10_Proofs.less_than_5_floor. lia. }
  split; [exact Hfloor|].
  apply (Int_log10_Proofs.floor_log10_unique v); [exact Hfloor|].
  apply Int_log10_Proofs.decimal_digits_fuel_floor.
  unfold u64_max in H. cbn. lia.
Qed.

Lemma u64_is_floor_log10_witness :
  1 <= 18446744073709551615 <= u64_max /\
  is_floor_log10 18446744073709551615 (u64 18446744073709551615) /\
  u64 18446744073709551615 = decimal_digits_fuel 20 18446744073709551615 - 1.
Proof.
  split; [unfold u64_max; lia|].
  apply (u64_is_floor_log10 18446744073709551615). unfold u64_max. lia.
Defined.

Lemma wrap_nonneg z n : 0 <= z < 2 ^ n -> z mod 2 ^ n = z.
Proof. intros H. apply Z.mod_small. exact H. Qed.

Lemma wrap_negative z n : - 2 ^ n <= z < 0 -> z mod 2 ^ n = z + 2 ^ n.
Proof.
  intros H. symmetry. apply (Z.mod_unique z (2 ^ n) (-1)); lia.
Qed.

(** X2: [u8] and [u16] on every nonzero value of their type, and the signed
    entry points [i8], [i16], [i32], [i64] on every positive value of
    theirs, return [floor(log10(v))]. *)
Theorem small_and_signed_entry_points v :
  1 <= v ->
  (v <= 255 -> is_floor_log10 v (u8 v)) /\
  (v <= 65535 -> is_floor_log10 v (u16 v)) /\
  (v <= 127 -> is_floor_log10 v (i8 v)) /\
  (v <= 32767 -> is_floor_log10 v (i16 v)) /\
  (v <= 2147483647 -> is_floor_log10 v (i32 v)) /\
  (v <= 9223372036854775807 -> is_floor_log10 v (i64 v)).
Proof.
  intros Hpos.
  assert (Hsmall : v <= 65535 -> is_floor_log10 v (less_than_5 (wrap32 v))).
  { intros H. rewrite (wrap32_small v) by lia.
    apply Int_log10_Proofs.less_than_5_floor. lia. }
  repeat match goal with |- _ /\ _ => split end; intros H.
  - apply Hsmall. lia.
  - apply Hsmall. lia.
  - unfold i8, u8, wrap8. rewrite (wrap_nonneg v 8) by (cbn; lia).
    apply Hsmall. lia.
  - unfold i16, u16, wrap16. rewrite (wrap_nonneg v 16) by (cbn; lia).
    apply Hsmall. lia.
  - unfold i32. rewrite (wrap32_small v) by lia.
    apply Int_log10_Proofs.u32_floor. unfold u32_max. lia.
  - unfold i64, wrap64. rewrite (wrap_nonneg v 64) by (cbn; lia).
    apply u64_is_floor_log10. unfold u64_max. lia.
Qed.

Lemma small_and_signed_entry_points_witness :
  1 <= 100 /\
  (100 <= 255 -> is_floor_log10 100 (u8 100)) /\
  (100 <= 65535 -> is_floor_log10 100 (u16 100)) /\
  (100 <= 127 -> is_floor_log10 100 (i8 100)) /\
  (100 <= 32767 -> is_floor_log10 100 (i16 100)) /\
  (100 <= 2147483647 -> is_floor_log10 100 (i32 100)) /\
  (100 <= 9223372036854775807 -> is_floor_log10 100 (i64 100)).
Proof. split; [lia|]. apply (small_and_signed_entry_points 100). lia. Defined.

(** X3: the signed entry points do not reject a negative argument: the cast
    turns it into the unsigned value with the same bits, so [i8] returns 2,
    [i16] returns 4, [i32] returns 9 and [i64] returns 18 or 19, the
    logarithm of [v + 2^64]. *)
Theorem signed_entry_points_on_negative v :
  v < 0 ->
  (-128 <= v -> i8 v = 2) /\
  (-32768 <= v -> i16 v = 4) /\
  (-2147483648 <= v -> i32 v = 9) /\
  (-9223372036854775808 <= v ->
   is_floor_log10 (v + 2 ^ 64) (i64 v) /\ 18 <= i64 v <= 19).
Proof.
  intros Hneg. repeat match goal with |- _ /\ _ => split end; intros H.
  - unfold i8, u8, wrap8. rewrite (wrap_negative v 8) by (cbn; lia).
    change (2 ^ 8) with 256. rewrite (wrap32_small (v + 256)) by lia.
    assert (Hr : 0 < v + 256 < 100000) by lia.
    destruct (Int_log10_Proofs.less_than_5_cases _ Hr)
      as [[? ->]|[[? ->]|[[? ->]|[[? ->]|[? ->]]]]]; lia.
  - unfold i16, u16, wrap16. rewrite (wrap_negative v 16) by (cbn; lia).
    change (2 ^ 16) with 65536. rewrite (wrap32_small (v + 65536)) by lia.
    assert (Hr : 0 < v + 65536 < 100000) by lia.
    destruct (Int_log10_Proofs.less_than_5_cases _ Hr)
      as [[? ->]|[[? ->]|[[? ->]|[[? ->]|[? ->]]]]]; lia.
  - unfold i32, wrap32. rewrite (wrap_negative v 32) by (cbn; lia).
    change (2 ^ 32) with 4294967296.
    apply (Int_log10_Proofs.floor_log10_unique (v + 4294967296)).
    + apply Int_log10_Proofs.u32_floor. unfold u32_max. lia.
    + unfold is_floor_log10. cbn. lia.
  - assert (Hf : is_floor_log10 (v + 2 ^ 64) (i64 v)).
    { unfold i64, wrap64. rewrite (wrap_negative v 64) by (cbn; lia).
      apply u64_is_floor_log10. unfold u64_max. cbn. lia. }
    split; [exact Hf|].
    destruct Hf as (Hr & Hlo & Hhi).
    change (2 ^ 64) with 18446744073709551616 in *.
    split.
    + destruct (Z_lt_ge_dec (i64 v) 18) as [Hlt|Hge]; [|lia].
      assert (10 ^ (i64 v + 1) <= 10 ^ 18) by (apply Z.pow_le_mono_r; lia).
      change (10 ^ 18) with 1000000000000000000 in *. lia.
    + destruct (Z_le_gt_dec (i64 v) 19) as [Hle|Hgt]; [exact Hle|].
      assert (10 ^ 20 <= 10 ^ (i64 v)) by (apply Z.pow_le_mono_r; lia).
      change (10 ^ 20) with 100000000000000000000 in *. lia.
Qed.

Lemma signed_entry_points_on_negative_witness :
  -1 < 0 /\
  (-128 <= -1 -> i8 (-1) = 2) /\
  (-32768 <= -1 -> i16 (-1) = 4) /\
  (-2147483648 <= -1 -> i32 (-1) = 9) /\
  (-9223372036854775808 <= -1 ->
   is_floor_log10 (-1 + 2 ^ 64) (i64 (-1)) /\ 18 <= i64 (-1) <= 19).
Proof. split; [lia|]. apply (signed_entry_points_on_negative (-1)). lia. Defined.

End Int_log10_More.

(* ===================================================================== *)
(** * Further properties of the Choice storage union                      *)
(* ===================================================================== *)

Module Choice_More.
Import choice_storage.

Section Proofs.
Context {V : Type}.
Variable tuple_eq : V -> V -> bool.
Variable strong_order : V -> V -> strong_ordering.
Variable weak_order : V -> V -> weak_ordering.
Variable partial_order : V -> V -> partial_ordering.
Variable clone : V -> V.

Ltac live_here Hel Hs :=
  cbn in Hel, Hs; injection Hel as <-; injection Hs as ->.

Ltac live_deeper Hel Hs m :=
  apply Choice_Proofs.find_succ_inv in Hs as (m & -> & Hs);
  match type of Hel with
  | (?e :: ?r) !! S ?k = _ => change ((e :: r) !! S k) with (r !! k) in Hel
  end.

Lemma activate_out_of_range rest :
  forall e I k (s : Storage V),
    length rest < k ->
    activate_for_construct V I e rest (I + k) s = Panic.
Proof.
  induction rest as [|e' rest' IH]; intros e I k s Hk.
  - cbn [activate_for_construct].
    replace (Nat.eqb (I + k) I) with false; [reflexivity|].
    symmetry. apply Nat.eqb_neq. cbn in Hk. lia.
  - destruct k as [|k]; [cbn in Hk; lia|].
    cbn [length] in Hk. cbn [activate_for_construct].
    rewrite Choice_Proofs.eqb_deeper. cbn [negb].
    replace (I + S k) with (S I + k) by lia.
    rewrite (IH e' (S I) k inactive) by lia. reflexivity.
Qed.

(** X4: [activate_for_construct(index)] on a fresh storage activates
    [more_] on the levels before [index] and nothing else when [index]
    names an alternative, and is a fatal check failure when it does not. *)
Theorem activate_for_construct_total e rest index :
  activate_for_construct V 0 e rest index inactive =
  match (e :: rest) !! index with
  | Some _ => Ret (construct_choice_storage V index (fun s => s) inactive)
  | None => Panic
  end.
Proof.
  destruct ((e :: rest) !! index) as [el|] eqn:Hel.
  - exact (Choice_Proofs.activate_for_construct_chain rest e 0 index el Hel).
  - apply lookup_ge_None_1 in Hel. cbn [length] in Hel.
    apply (activate_out_of_range rest e 0 index). lia.
Qed.

(** X5: what [construct_choice_storage<I>] followed by [construct(value)]
    builds is what [find_choice_storage<I>] finds: the reference it returns
    designates the level whose live member is the tuple holding [value].
    For any other level [J] it still returns a reference, and that one does
    not designate a tuple: for [J < I] it designates a level whose live
    member is [more_], and for [I < J] a member that is not within its
    lifetime, since construction activated [more_] on the levels before [I]
    only. *)
Theorem construct_then_find I J (value : V) :
  find_choice_storage V J
    (construct_choice_storage V I (construct V value) inactive) =
  match Nat.compare J I with
  | Eq => in_lifetime (tuple_ value)
  | Lt =>
      in_lifetime
        (construct_choice_storage V (I - J) (construct V value) inactive)
  | Gt => out_of_lifetime
  end.
Proof.
  revert J. induction I as [|I IH]; intros J.
  - destruct J; reflexivity.
  - destruct J as [|J]; [reflexivity|].
    cbn [construct_choice_storage find_choice_storage Nat.compare Nat.sub].
    exact (IH J).
Qed.

(** ** Copy and move construction *)

Lemma copy_construct_live rest :
  forall e I k el v (s from : Storage V),
    (e :: rest) !! k = Some el ->
    find_choice_storage V k from = in_lifetime (live_level V el v) ->
    copy_construct V I e rest (I + k) inactive from =
    Ret (construct_choice_storage V k (fun _ => live_level V el v) inactive).
Proof.
  induction rest as [|e' rest' IH]; intros e I k el v s from Hel Hs.
  - destruct k as [|k]; [|destruct k; discriminate].
    live_here Hel Hs. cbn [copy_construct]. rewrite Choice_Proofs.eqb_live.
    destruct e; reflexivity.
  - destruct k as [|k].
    + live_here Hel Hs. cbn [copy_construct]. rewrite Choice_Proofs.eqb_live.
      destruct e; reflexivity.
    + live_deeper Hel Hs m.
      cbn [copy_construct]. rewrite Choice_Proofs.eqb_deeper. cbn [negb].
      replace (I + S k) with (S I + k) by lia.
      rewrite (IH e' (S I) k el v inactive m Hel Hs).
      destruct e; reflexivity.
Qed.

Lemma move_construct_live rest :
  forall e I k el v (s from : Storage V),
    (e :: rest) !! k = Some el ->
    find_choice_storage V k from = in_lifetime (live_level V el v) ->
    move_construct V I e rest (I + k) inactive from =
    Ret (construct_choice_storage V k (fun _ => live_level V el v) inactive).
Proof.
  induction rest as [|e' rest' IH]; intros e I k el v s from Hel Hs.
  - destruct k as [|k]; [|destruct k; discriminate].
    live_here Hel Hs. cbn [move_construct]. rewrite Choice_Proofs.eqb_live.
    destruct e; reflexivity.
  - destruct k as [|k].
    + live_here Hel Hs. cbn [move_construct]. rewrite Choice_Proofs.eqb_live.
      destruct e; reflexivity.
    + live_deeper Hel Hs m.
      cbn [move_construct]. rewrite Choice_Proofs.eqb_deeper. cbn [negb].
      replace (I + S k) with (S I + k) by lia.
      rewrite (IH e' (S I) k el v inactive m Hel Hs).
      destruct e; reflexivity.
Qed.

(** X6: copy- and move-constructing a fresh storage from one that is live
    at [index] gives a storage that is live at the same [index] and holds
    the source's payload there. *)
Theorem construct_from_live_keeps_alternative
    e rest index el v (from : Storage V) :
  (e :: rest) !! index = Some el ->
  find_choice_storage V index from = in_lifetime (live_level V el v) ->
  exists d,
    copy_construct V 0 e rest index inactive from = Ret d /\
    move_construct V 0 e rest index inactive from = Ret d /\
    find_choice_storage V index d = in_lifetime (live_level V el v).
Proof.
  intros Hel Hs.
  exists (construct_choice_storage V index (fun _ => live_level V el v) inactive).
  split; [|split].
  - exact (copy_construct_live rest e 0 index el v inactive from Hel Hs).
  - exact (move_construct_live rest e 0 index el v inactive from Hel Hs).
  - rewrite Choice_Proofs.find_constructed. reflexivity.
Qed.

(** ** Clone construction *)

Lemma clone_construct_live rest :
  forall e I k el v (from : Storage V),
    (e :: rest) !! k = Some el ->
    (forall j, j < k -> (e :: rest) !! j <> Some Nothing) ->
    find_choice_storage V k from = in_lifetime (live_level V el v) ->
    clone_construct V clone I e rest (I + k) inactive from =
    Ret (construct_choice_storage V k (fun _ => live_level V el (clone v))
           inactive).
Proof.
  induction rest as [|e' rest' IH]; intros e I k el v from Hel Hno Hs.
  - destruct k as [|k]; [|destruct k; discriminate].
    live_here Hel Hs. cbn [clone_construct]. rewrite Choice_Proofs.eqb_live.
    destruct e; reflexivity.
  - destruct k as [|k].
    + live_here Hel Hs. cbn [clone_construct]. rewrite Choice_Proofs.eqb_live.
      destruct e; reflexivity.
    + live_deeper Hel Hs m.
      assert (He : e <> Nothing).
      { intros ->. apply (Hno 0); [lia|reflexivity]. }
      assert (Hno' : forall j, j < k -> (e' :: rest') !! j <> Some Nothing).
      { intros j Hj. apply (Hno (S j)). lia. }
      cbn [clone_construct]. rewrite Choice_Proofs.eqb_deeper.
      replace (I + S k) with (S I + k) by lia.
      rewrite (IH e' (S I) k el v m Hel Hno' Hs).
      destruct e; [congruence|reflexivity|reflexivity].
Qed.

Lemma clone_construct_through_nothing rest :
  forall e I k j el v (from : Storage V),
    (e :: rest) !! k = Some el ->
    j < k -> (e :: rest) !! j = Some Nothing ->
    find_choice_storage V k from = in_lifetime (live_level V el v) ->
    clone_construct V clone I e rest (I + k) inactive from = Undefined.
Proof.
  induction rest as [|e' rest' IH]; intros e I k j el v from Hel Hj Hnone Hs.
  - destruct k as [|k]; [lia|destruct k; discriminate].
  - destruct k as [|k]; [lia|].
    live_deeper Hel Hs m.
    cbn [clone_construct]. rewrite Choice_Proofs.eqb_deeper. cbn [negb].
    replace (I + S k) with (S I + k) by lia.
    destruct j as [|j].
    + cbn in Hnone. injection Hnone as ->. reflexivity.
    + change ((e :: e' :: rest') !! S j) with ((e' :: rest') !! j) in Hnone.
      assert (Hj' : j < k) by lia.
      destruct e; [reflexivity| |];
        rewrite (IH e' (S I) k j el v m Hel Hj' Hnone Hs); reflexivity.
Qed.

(** X7: clone-constructing a fresh storage from one that is live at
    [index], where no alternative before [index] is without values, gives a
    storage that is live at [index] and holds the clone of the source's
    payload there. *)
Theorem clone_construct_keeps_alternative e rest index el v (from : Storage V) :
  (e :: rest) !! index = Some el ->
  (forall j, j < index -> (e :: rest) !! j <> Some Nothing) ->
  find_choice_storage V index from = in_lifetime (live_level V el v) ->
  exists d,
    clone_construct V clone 0 e rest index inactive from = Ret d /\
    find_choice_storage V index d = in_lifetime (live_level V el (clone v)).
Proof.
  intros Hel Hno Hs.
  exists (construct_choice_storage V index
            (fun _ => live_level V el (clone v)) inactive).
  split.
  - exact (clone_construct_live rest e 0 index el v from Hel Hno Hs).
  - rewrite Choice_Proofs.find_constructed. reflexivity.
Qed.

(** X8: with an alternative without values before the live one,
    [clone_construct] into a fresh storage calls [more_.clone_construct] on
    a [more_] that was never made the active member: the [Nothing]
    specialization, unlike its [copy_construct] and [move_construct] and
    unlike the specializations that hold a tuple, does not run
    [std::construct_at(&more_)] first.  Copy construction from the same
    source does produce the storage. *)
Theorem clone_construct_skips_activation e rest index j el v (from : Storage V) :
  (e :: rest) !! index = Some el ->
  j < index -> (e :: rest) !! j = Some Nothing ->
  find_choice_storage V index from = in_lifetime (live_level V el v) ->
  clone_construct V clone 0 e rest index inactive from = Undefined /\
  copy_construct V 0 e rest index inactive from =
    Ret (construct_choice_storage V index (fun _ => live_level V el v) inactive).
Proof.
  intros Hel Hj Hnone Hs. split.
  - exact (clone_construct_through_nothing rest e 0 index j el v from
             Hel Hj Hnone Hs).
  - exact (copy_construct_live rest e 0 index el v inactive from Hel Hs).
Qed.

(** ** Assignment *)

Lemma copy_assign_live rest :
  forall e I k el v w (s from : Storage V),
    (e :: rest) !! k = Some el ->
    find_choice_storage V k s = in_lifetime (live_level V el w) ->
    find_choice_storage V k from = in_lifetime (live_level V el v) ->
    copy_assign V I e rest (I + k) s from = Ret from.
Proof.
  induction rest as [|e' rest' IH]; intros e I k el v w s from Hel Hs Hf.
  - destruct k as [|k]; [|destruct k; discriminate].
    cbn in Hel, Hs, Hf. injection Hel as <-. injection Hs as ->.
    injection Hf as ->.
    cbn [copy_assign]. rewrite Choice_Proofs.eqb_live. destruct e; reflexivity.
  - destruct k as [|k].
    + cbn in Hel, Hs, Hf. injection Hel as <-. injection Hs as ->.
      injection Hf as ->.
      cbn [copy_assign]. rewrite Choice_Proofs.eqb_live.
      destruct e; reflexivity.
    + apply Choice_Proofs.find_succ_inv in Hs as (m & -> & Hs).
      apply Choice_Proofs.find_succ_inv in Hf as (m' & -> & Hf).
      change ((e :: e' :: rest') !! S k) with ((e' :: rest') !! k) in Hel.
      cbn [copy_assign]. rewrite Choice_Proofs.eqb_deeper. cbn [negb with_more].
      replace (I + S k) with (S I + k) by lia.
      rewrite (IH e' (S I) k el v w m m' Hel Hs Hf).
      destruct e; reflexivity.
Qed.

Lemma move_assign_live rest :
  forall e I k el v w (s from : Storage V),
    (e :: rest) !! k = Some el ->
    find_choice_storage V k s = in_lifetime (live_level V el w) ->
    find_choice_storage V k from = in_lifetime (live_level V el v) ->
    move_assign V I e rest (I + k) s from = Ret from.
Proof.
  induction rest as [|e' rest' IH]; intros e I k el v w s from Hel Hs Hf.
  - destruct k as [|k]; [|destruct k; discriminate].
    cbn in Hel, Hs, Hf. injection Hel as <-. injection Hs as ->.
    injection Hf as ->.
    cbn [move_assign]. rewrite Choice_Proofs.eqb_live. destruct e; reflexivity.
  - destruct k as [|k].
    + cbn in Hel, Hs, Hf. injection Hel as <-. injection Hs as ->.
      injection Hf as ->.
      cbn [move_assign]. rewrite Choice_Proofs.eqb_live.
      destruct e; reflexivity.
    + apply Choice_Proofs.find_succ_inv in Hs as (m & -> & Hs).
      apply Choice_Proofs.find_succ_inv in Hf as (m' & -> & Hf).
      change ((e :: e' :: rest') !! S k) with ((e' :: rest') !! k) in Hel.
      cbn [move_assign]. rewrite Choice_Proofs.eqb_deeper. cbn [negb with_more].
      replace (I + S k) with (S I + k) by lia.
      rewrite (IH e' (S I) k el v w m m' Hel Hs Hf).
      destruct e; reflexivity.
Qed.

(** An assignment between storages that are live at different alternatives
    is not caught: it assigns to or descends into a member outside its
    lifetime and never ends in the fatal check. *)
Lemma copy_assign_mismatch rest :
  forall e I k k' el el' v w (s from : Storage V),
    (e :: rest) !! k = Some el -> (e :: rest) !! k' = Some el' ->
    k' < k ->
    find_choice_storage V k' s = in_lifetime (live_level V el' w) ->
    find_choice_storage V k from = in_lifetime (live_level V el v) ->
    copy_assign V I e rest (I + k) s from = Undefined.
Proof.
  induction rest as [|e' rest' IH];
    intros e I k k' el el' v w s from Hel Hel' Hlt Hs Hf.
  - destruct k as [|k]; [lia|destruct k; discriminate].
  - destruct k as [|k]; [lia|].
    apply Choice_Proofs.find_succ_inv in Hf as (m' & -> & Hf).
    change ((e :: e' :: rest') !! S k) with ((e' :: rest') !! k) in Hel.
    cbn [copy_assign]. rewrite Choice_Proofs.eqb_deeper. cbn [negb].
    replace (I + S k) with (S I + k) by lia.
    destruct k' as [|k'].
    + cbn in Hel', Hs. injection Hel' as <-. injection Hs as ->.
      destruct e; reflexivity.
    + apply Choice_Proofs.find_succ_inv in Hs as (m & -> & Hs).
      change ((e :: e' :: rest') !! S k') with ((e' :: rest') !! k') in Hel'.
      assert (Hlt' : k' < k) by lia.
      cbn [with_more].
      rewrite (IH e' (S I) k k' el el' v w m m' Hel Hel' Hlt' Hs Hf).
      destruct e; reflexivity.
Qed.

(** X9: copy- and move-assignment between two storages that are live at
    the same [index] leave the destination live at [index] with the
    payload of the source: the destination becomes equal to the source. *)
Theorem assign_between_same_alternative
    e rest index el v w (s from : Storage V) :
  (e :: rest) !! index = Some el ->
  find_choice_storage V index s = in_lifetime (live_level V el w) ->
  find_choice_storage V index from = in_lifetime (live_level V el v) ->
  copy_assign V 0 e rest index s from = Ret from /\
  move_assign V 0 e rest index s from = Ret from.
Proof.
  intros Hel Hs Hf. split.
  - exact (copy_assign_live rest e 0 index el v w s from Hel Hs Hf).
  - exact (move_assign_live rest e 0 index el v w s from Hel Hs Hf).
Qed.

(** X10: when the destination is live at an earlier alternative than the
    source, [copy_assign(index, from)] with the source's index is not
    stopped by a check: it reaches a union member outside its lifetime. *)
Theorem copy_assign_across_alternatives_unchecked
    e rest index index' el el' v w (s from : Storage V) :
  (e :: rest) !! index = Some el ->
  (e :: rest) !! index' = Some el' ->
  index' < index ->
  find_choice_storage V index' s = in_lifetime (live_level V el' w) ->
  find_choice_storage V index from = in_lifetime (live_level V el v) ->
  copy_assign V 0 e rest index s from = Undefined.
Proof.
  intros Hel Hel' Hlt Hs Hf.
  exact (copy_assign_mismatch rest e 0 index index' el el' v w s from
           Hel Hel' Hlt Hs Hf).
Qed.

(** ** Comparisons *)

(** X11: [eq], [weak_ord] and [partial_ord] with the index of the
    alternative that is live in both storages return the comparison of the
    two payloads, and [true] or [equivalent] for an alternative without
    values. *)
Theorem comparisons_of_live_alternative
    e rest index el v w (s other : Storage V) :
  (e :: rest) !! index = Some el ->
  find_choice_storage V index s = in_lifetime (live_level V el v) ->
  find_choice_storage V index other = in_lifetime (live_level V el w) ->
  eq V tuple_eq 0 e rest index s other =
    Ret (payload_result el tuple_eq true v w) /\
  weak_ord V weak_order 0 e rest index s other =
    Ret (payload_result el weak_order weak_equivalent v w) /\
  partial_ord V partial_order 0 e rest index s other =
    Ret (payload_result el partial_order partial_equivalent v w).
Proof.
  intros Hel Hs Ho. split; [|split].
  - exact (Choice_Proofs.eq_live tuple_eq rest e 0 index el v w s other
             Hel Hs Ho).
  - exact (Choice_Proofs.weak_ord_live weak_order rest e 0 index el v w s other
             Hel Hs Ho).
  - exact (Choice_Proofs.partial_ord_live partial_order rest e 0 index el v w
             s other Hel Hs Ho).
Qed.

Lemma strong_ord_instantiable_spec rest :
  forall e,
    strong_ord_instantiable e rest = negb (multi_value_before_last (e :: rest)).
Proof.
  induction rest as [|e' rest' IH]; intros e; [reflexivity|].
  unfold multi_value_before_last.
  change (removelast (e :: e' :: rest')) with (e :: removelast (e' :: rest')).
  cbn [existsb strong_ord_instantiable].
  destruct e; cbn [orb negb]; try reflexivity; apply IH.
Qed.

(** X12: [strong_ord] exists for a list of alternatives exactly when no
    alternative of several values comes before the last one, and then it
    returns the strong order of the payloads of the live alternative. *)
Theorem strong_ord_of_live_alternative
    e rest index el v w (s other : Storage V) :
  (e :: rest) !! index = Some el ->
  find_choice_storage V index s = in_lifetime (live_level V el v) ->
  find_choice_storage V index other = in_lifetime (live_level V el w) ->
  strong_ord V strong_order 0 e rest index s other =
  if multi_value_before_last (e :: rest) then NoMember
  else Ret (payload_result el strong_order strong_equivalent v w).
Proof.
  intros Hel Hs Ho.
  pose proof (strong_ord_instantiable_spec rest e) as Hinst.
  destruct (multi_value_before_last (e :: rest)); cbn [negb] in Hinst.
  - unfold strong_ord. rewrite Hinst. reflexivity.
  - exact (Choice_Proofs.strong_ord_live strong_order e rest index el v w
             s other Hel Hinst Hs Ho).
Qed.

End Proofs.

Lemma construct_from_live_keeps_alternative_witness :
  ((Nothing :: sample_rest) !! 2 = Some TupleN /\
   find_choice_storage Z 2 (sample_live 2 TupleN 7) =
     in_lifetime (live_level Z TupleN 7%Z)) /\
  exists d,
    copy_construct Z 0 Nothing sample_rest 2 inactive (sample_live 2 TupleN 7)
      = Ret d /\
    move_construct Z 0 Nothing sample_rest 2 inactive (sample_live 2 TupleN 7)
      = Ret d /\
    find_choice_storage Z 2 d = in_lifetime (live_level Z TupleN 7%Z).
Proof.
  split; [split; reflexivity|].
  apply (construct_from_live_keeps_alternative Nothing sample_rest 2 TupleN 7%Z);
    reflexivity.
Defined.

Lemma clone_construct_keeps_alternative_witness :
  ((Tuple1 :: [TupleN]) !! 1 = Some TupleN /\
   (forall j, j < 1 -> (Tuple1 :: [TupleN]) !! j <> Some Nothing) /\
   find_choice_storage Z 1 (sample_live 1 TupleN 7) =
     in_lifetime (live_level Z TupleN 7%Z)) /\
  exists d,
    clone_construct Z Z.succ 0 Tuple1 [TupleN] 1 inactive (sample_live 1 TupleN 7)
      = Ret d /\
    find_choice_storage Z 1 d = in_lifetime (live_level Z TupleN (Z.succ 7)).
Proof.
  assert (Hno : forall j, j < 1 -> (Tuple1 :: [TupleN]) !! j <> Some Nothing).
  { intros j Hj. destruct j; [discriminate|lia]. }
  split; [split; [reflexivity|split; [exact Hno|reflexivity]]|].
  apply (clone_construct_keeps_alternative Z.succ Tuple1 [TupleN] 1 TupleN 7%Z);
    [reflexivity|exact Hno|reflexivity].
Defined.

Lemma clone_construct_skips_activation_witness :
  ((Nothing :: sample_rest) !! 1 = Some Tuple1 /\ 0 < 1 /\
   (Nothing :: sample_rest) !! 0 = Some Nothing /\
   find_choice_storage Z 1 (sample_live 1 Tuple1 7) =
     in_lifetime (live_level Z Tuple1 7%Z)) /\
  clone_construct Z Z.succ 0 Nothing sample_rest 1 inactive
    (sample_live 1 Tuple1 7) = Undefined /\
  copy_construct Z 0 Nothing sample_rest 1 inactive (sample_live 1 Tuple1 7) =
    Ret (construct_choice_storage Z 1 (fun _ => live_level Z Tuple1 7%Z) inactive).
Proof.
  split; [repeat split; (lia || reflexivity)|].
  apply (clone_construct_skips_activation Z.succ Nothing sample_rest 1 0
           Tuple1 7%Z); (lia || reflexivity).
Defined.

Lemma assign_between_same_alternative_witness :
  ((Nothing :: sample_rest) !! 2 = Some TupleN /\
   find_choice_storage Z 2 (sample_live 2 TupleN 3) =
     in_lifetime (live_level Z TupleN 3%Z) /\
   find_choice_storage Z 2 (sample_live 2 TupleN 7) =
     in_lifetime (live_level Z TupleN 7%Z)) /\
  copy_assign Z 0 Nothing sample_rest 2
    (sample_live 2 TupleN 3) (sample_live 2 TupleN 7) =
    Ret (sample_live 2 TupleN 7) /\
  move_assign Z 0 Nothing sample_rest 2
    (sample_live 2 TupleN 3) (sample_live 2 TupleN 7) =
    Ret (sample_live 2 TupleN 7).
Proof.
  split; [repeat split; reflexivity|].
  apply (assign_between_same_alternative Nothing sample_rest 2 TupleN 7%Z 3%Z);
    reflexivity.
Defined.

Lemma copy_assign_across_alternatives_unchecked_witness :
  ((Nothing :: sample_rest) !! 2 = Some TupleN /\
   (Nothing :: sample_rest) !! 1 = Some Tuple1 /\ 1 < 2 /\
   find_choice_storage Z 1 (sample_live 1 Tuple1 3) =
     in_lifetime (live_level Z Tuple1 3%Z) /\
   find_choice_storage Z 2 (sample_live 2 TupleN 7) =
     in_lifetime (live_level Z TupleN 7%Z)) /\
  copy_assign Z 0 Nothing sample_rest 2
    (sample_live 1 Tuple1 3) (sample_live 2 TupleN 7) = Undefined.
Proof.
  split; [repeat split; (lia || reflexivity)|].
  apply (copy_assign_across_alternatives_unchecked Nothing sample_rest 2 1
           TupleN Tuple1 7%Z 3%Z); (lia || reflexivity).
Defined.

Lemma comparisons_of_live_alternative_witness :
  ((Nothing :: sample_rest) !! 2 = Some TupleN /\
   find_choice_storage Z 2 (sample_live 2 TupleN 3) =
     in_lifetime (live_level Z TupleN 3%Z) /\
   find_choice_storage Z 2 (sample_live 2 TupleN 7) =
     in_lifetime (live_level Z TupleN 7%Z)) /\
  eq Z Z.eqb 0 Nothing sample_rest 2
    (sample_live 2 TupleN 3) (sample_live 2 TupleN 7) =
    Ret (payload_result TupleN Z.eqb true 3%Z 7%Z) /\
  weak_ord Z Z_weak_order 0 Nothing sample_rest 2
    (sample_live 2 TupleN 3) (sample_live 2 TupleN 7) =
    Ret (payload_result TupleN Z_weak_order weak_equivalent 3%Z 7%Z) /\
  partial_ord Z Z_partial_order 0 Nothing sample_rest 2
    (sample_live 2 TupleN 3) (sample_live 2 TupleN 7) =
    Ret (payload_result TupleN Z_partial_order partial_equivalent 3%Z 7%Z).
Proof.
  split; [repeat split; reflexivity|].
  apply (comparisons_of_live_alternative Z.eqb Z_weak_order Z_partial_order
           Nothing sample_rest 2 TupleN 3%Z 7%Z); reflexivity.
Defined.

Lemma strong_ord_of_live_alternative_witness :
  ((Nothing :: sample_rest) !! 2 = Some TupleN /\
   find_choice_storage Z 2 (sample_live 2 TupleN 3) =
     in_lifetime (live_level Z TupleN 3%Z) /\
   find_choice_storage Z 2 (sample_live 2 TupleN 7) =
     in_lifetime (live_level Z TupleN 7%Z)) /\
  strong_ord Z Z_strong_order 0 Nothing sample_rest 2
    (sample_live 2 TupleN 3) (sample_live 2 TupleN 7) =
  if multi_value_before_last (Nothing :: sample_rest) then NoMember
  else Ret (payload_result TupleN Z_strong_order strong_equivalent 3%Z 7%Z).
Proof.
  split; [repeat split; reflexivity|].
  apply (strong_ord_of_live_alternative Z_strong_order Nothing sample_rest 2
           TupleN 3%Z 7%Z); reflexivity.
Defined.

End Choice_More.

(* ===================================================================== *)
(** * Further properties of Option                                        *)
(* ===================================================================== *)

Module Option_More.
Import option.

Ltac lookups := Option_Proofs.lookups.

Ltac unfold_more :=
  unfold map_const, filter_const, and_that, xor_that, or_else, or_that,
    option.and_then, return_option, map_or_else, map_or, option.map,
    option.replace, get_or_insert_with, get_or_insert_default, get_or_insert,
    option.insert, as_value, replace_some;
  Option_Proofs.unfold_ops.

Ltac run := unfold_more; lookups.

Ltac lookups' :=
  repeat first
    [ progress Option_Proofs.lookups
    | rewrite lookup_delete_eq
    | rewrite lookup_delete_ne by congruence ].

Section Proofs.
Context {T : Type}.
Variable clone_T : T -> T.
Variable clone_from_T : T -> T -> T.
Variable default_T : T.
Variable traits : Traits.

Implicit Types (w : world T) (a this result o : addr) (v : T).

(** X13: [take()] moves whatever the Option holds into the returned Option
    and leaves the source [None]; on [None] it returns [None] and touches no
    payload, so a second [take()] always returns [None]. *)
Theorem take_moves_out_once w this result result' s :
  this <> result -> this <> result' ->
  objs w !! this = Some s ->
  exists w',
    take T this result w = Ret tt w' /\
    objs w' !! result = Some s /\
    objs w' !! this = Some None /\
    log w' = log w ++ match s with
                      | Some v => [EvDestroy this; EvConstruct result v]
                      | None => []
                      end /\
    exists w'',
      take T this result' w' = Ret tt w'' /\
      objs w'' !! result' = Some None /\
      objs w'' !! this = Some None /\
      log w'' = log w'.
Proof.
  intros Hne Hne' Hthis. destruct s as [v|].
  - eexists. split; [run; reflexivity|].
    repeat split; [lookups; reflexivity ..| |].
    + lookups. rewrite <- app_assoc. reflexivity.
    + eexists. split; [run; reflexivity|].
      repeat split; lookups; reflexivity.
  - eexists. split; [run; reflexivity|].
    repeat split; [lookups; reflexivity ..| |].
    + lookups. rewrite app_nil_r. reflexivity.
    + eexists. split; [run; reflexivity|].
      repeat split; lookups; reflexivity.
Qed.

(** X14: [map(m)] consumes the Option: the result holds [m(v)] when the
    source held [v] and [None] when it held nothing, and the source is
    [None] afterwards; [map_or] and [map_or_else] return [m(v)], or the
    default when there is no value. *)
Theorem map_applies_to_payload {R} w this result s (m : T -> T)
    (m' : T -> R) (d : R) (df : unit -> R) :
  this <> result ->
  objs w !! this = Some s ->
  (exists w',
      map T this result m w = Ret tt w' /\
      objs w' !! result = Some (m <$> s) /\
      objs w' !! this = Some None) /\
  (exists w',
      map_or T this d m' w = Ret (default d (m' <$> s)) w' /\
      objs w' !! this = Some None) /\
  (exists w',
      map_or_else T this df m' w = Ret (default (df tt) (m' <$> s)) w' /\
      objs w' !! this = Some None).
Proof.
  intros Hne Hthis.
  destruct s as [v|]; repeat split;
    (eexists; split; [run; reflexivity|]; repeat split; lookups; reflexivity).
Qed.

(** X15: mapping twice is mapping once with the composed function: the
    final Option holds the same value, and every Option on the way is left
    [None]. *)
Theorem map_map_fuses w this mid result s (f g : T -> T) :
  this <> mid -> mid <> result -> this <> result ->
  objs w !! this = Some s ->
  exists w1 w2,
    bind T (map T this mid f) (fun _ => map T mid result g) w = Ret tt w1 /\
    map T this result (fun x => g (f x)) w = Ret tt w2 /\
    objs w1 !! result = objs w2 !! result /\
    objs w1 !! result = Some ((fun x => g (f x)) <$> s) /\
    objs w1 !! this = Some None /\ objs w1 !! mid = Some None /\
    objs w2 !! this = Some None.
Proof.
  intros H1 H2 H3 Hthis.
  destruct s as [v|];
    (eexists; eexists; split; [run; reflexivity|]; split; [run; reflexivity|];
     repeat split; lookups; reflexivity).
Qed.

(** X16: [and_then(f)] is the bind of Option: the result is [f(v)] when the
    source held [v] and [None] otherwise; an Option just made with [with(v)]
    gives [f(v)], and [and_then] with a function that wraps its argument in
    [Some] gives back what the source held. *)
Theorem and_then_is_bind w this fresh result s v (f : T -> option T) :
  this <> result -> fresh <> result ->
  objs w !! this = Some s ->
  objs w !! fresh = None ->
  (exists w',
      and_then T this result f w = Ret tt w' /\
      objs w' !! result = Some (s ≫= f) /\
      objs w' !! this = Some None) /\
  (exists w',
      bind T (with_ T fresh v) (fun _ => and_then T fresh result f) w
        = Ret tt w' /\
      objs w' !! result = Some (f v)) /\
  (exists w',
      and_then T this result Some w = Ret tt w' /\
      objs w' !! result = Some s).
Proof.
  intros Hne Hne' Hthis Hfresh. split; [|split].
  - destruct s as [u|]; [destruct (f u) as [y|] eqn:Hf|];
      (eexists; split; [run; rewrite ?Hf; lookups; reflexivity|]);
      cbn; rewrite ?Hf; split; lookups; reflexivity.
  - destruct (f v) as [y|] eqn:Hf;
      (eexists; split; [run; rewrite ?Hf; lookups; reflexivity|]);
      lookups; reflexivity.
  - destruct s as [u|];
      (eexists; split; [run; reflexivity|]); lookups; reflexivity.
Qed.


(** X18: [insert(t)] makes the Option hold [t] whatever it held, while
    [get_or_insert(t)], [get_or_insert_default()] and
    [get_or_insert_with(f)] keep an existing value and only fill an empty
    Option; each returns the value the Option holds afterwards. *)
Theorem insert_and_get_or_insert w this s t (f : unit -> T) :
  objs w !! this = Some s ->
  (exists w',
      insert T this t w = Ret t w' /\ objs w' !! this = Some (Some t)) /\
  (exists w',
      get_or_insert T this t w = Ret (default t s) w' /\
      objs w' !! this = Some (Some (default t s)) /\
      (is_Some s -> w' = w)) /\
  (exists w',
      get_or_insert_default T default_T this w = Ret (default default_T s) w' /\
      objs w' !! this = Some (Some (default default_T s)) /\
      (is_Some s -> w' = w)) /\
  (exists w',
      get_or_insert_with T this f w = Ret (default (f tt) s) w' /\
      objs w' !! this = Some (Some (default (f tt) s)) /\
      (is_Some s -> w' = w)).
Proof.
  intros Hthis.
  repeat match goal with |- _ /\ _ => split end.
  - destruct s as [v|];
      (eexists; split; [run; reflexivity|]; lookups; reflexivity).
  - destruct s as [v|].
    + exists w. split; [run; reflexivity|]. split; [exact Hthis|reflexivity].
    + eexists. split; [run; reflexivity|].
      split; [lookups; reflexivity|intros [? [=]]].
  - destruct s as [v|].
    + exists w. split; [run; reflexivity|]. split; [exact Hthis|reflexivity].
    + eexists. split; [run; reflexivity|].
      split; [lookups; reflexivity|intros [? [=]]].
  - destruct s as [v|].
    + exists w. split; [run; reflexivity|]. split; [exact Hthis|reflexivity].
    + eexists. split; [run; reflexivity|].
      split; [lookups; reflexivity|intros [? [=]]].
Qed.

(** X19: [replace(t)] returns an Option holding what was there before and
    leaves the Option holding [t]; replacing twice hands back the first
    replacement. *)
Theorem replace_returns_previous w this result result' s t u :
  this <> result -> this <> result' ->
  objs w !! this = Some s ->
  exists w',
    replace T this result t w = Ret tt w' /\
    objs w' !! result = Some s /\
    objs w' !! this = Some (Some t) /\
    exists w'',
      replace T this result' u w' = Ret tt w'' /\
      objs w'' !! result' = Some (Some t) /\
      objs w'' !! this = Some (Some u).
Proof.
  intros Hne Hne' Hthis.
  destruct s as [v|];
    (eexists; split; [run; reflexivity|];
     repeat split; [lookups; reflexivity ..|];
     eexists; split; [run; reflexivity|]; split; lookups; reflexivity).
Qed.

(** X20: [as_value()] and [operator*] only look: on an Option holding
    [Some(v)] they return [v] and leave the Option, and the payload events,
    as they were, so the value can still be taken afterwards; on [None] they
    are fatal, like [unwrap()]. *)
Theorem as_value_peeks w this s :
  objs w !! this = Some s ->
  as_value T this w = match s with
                      | Some v => Ret v w
                      | None => Panic None
                      end /\
  bind T (as_value T this) (fun _ => unwrap T this) w = unwrap T this w.
Proof.
  intros Hthis. destruct s as [v|]; split; run; reflexivity.
Qed.

(** X21: when the payload's [<=>] is antisymmetric, transitive on [less] and
    agrees with its [==], so is the comparison of Options: swapping the
    operands flips the result, [==] holds exactly when [<=>] says
    equivalent, and [less] is transitive, [None] being the least element. *)
Theorem option_order_laws
    (T_eq : T -> T -> bool) (T_cmp : T -> T -> choice_storage.strong_ordering)
    w l m r sl sm sr :
  (forall x y, T_cmp y x = strong_flip (T_cmp x y)) ->
  (forall x y z,
      T_cmp x y = choice_storage.strong_less ->
      T_cmp y z = choice_storage.strong_less ->
      T_cmp x z = choice_storage.strong_less) ->
  (forall x y, T_eq x y = true <-> T_cmp x y = choice_storage.strong_equivalent) ->
  objs w !! l = Some sl -> objs w !! m = Some sm -> objs w !! r = Some sr ->
  exists o_lm,
    Option_cmp T T_cmp l m w = Ret o_lm w /\
    Option_cmp T T_cmp m l w = Ret (strong_flip o_lm) w /\
    (Option_eq T T_eq l m w = Ret true w <->
     o_lm = choice_storage.strong_equivalent) /\
    (o_lm = choice_storage.strong_less ->
     Option_cmp T T_cmp m r w = Ret choice_storage.strong_less w ->
     Option_cmp T T_cmp l r w = Ret choice_storage.strong_less w).
Proof.
  intros Hflip Htrans Heq Hl Hm Hr.
  destruct sl as [x|], sm as [y|].
  - exists (T_cmp x y). split; [run; reflexivity|].
    split; [run; rewrite Hflip; reflexivity|]. split.
    + run. rewrite <- Heq. split; [intros [= ->]; reflexivity|intros ->; reflexivity].
    + intros Hxy. destruct sr as [z|]; run.
      * intros [= Hyz]. rewrite (Htrans x y z Hxy Hyz). reflexivity.
      * intros [=].
  - exists choice_storage.strong_greater. split; [run; reflexivity|].
    split; [run; reflexivity|]. split.
    + run. split; intros [=].
    + intros [=].
  - exists choice_storage.strong_less. split; [run; reflexivity|].
    split; [run; reflexivity|]. split.
    + run. split; intros [=].
    + intros _. destruct sr as [z|]; run; [reflexivity|intros [=]].
  - exists choice_storage.strong_equivalent. split; [run; reflexivity|].
    split; [run; reflexivity|]. split.
    + run. split; reflexivity.
    + intros [=].
Qed.

Lemma constructs_app a (l l' : list (event T)) :
  constructs T a (l ++ l') = constructs T a l + constructs T a l'.
Proof.
  induction l as [|e l IH]; [reflexivity|].
  destruct e; cbn [app constructs]; rewrite IH; lia.
Qed.

Lemma destroys_app a (l l' : list (event T)) :
  destroys T a (l ++ l') = destroys T a l + destroys T a l'.
Proof.
  induction l as [|e l IH]; [reflexivity|].
  destruct e; cbn [app destroys]; rewrite IH; lia.
Qed.

Ltac settle Hbal :=
  let a := fresh "a" in
  intros a; specialize (Hbal a); cbn [objs log] in *;
  rewrite ?constructs_app, ?destroys_app; cbn [constructs destroys];
  repeat first
    [ rewrite lookup_insert
    | rewrite lookup_delete
    | case_decide; subst
    | match goal with
      | |- context [Pos.eqb ?x ?y] => destruct (Pos.eqb_spec x y); subst
      end ];
  repeat match goal with
         | H : objs ?w !! ?k = _, Hb : context [objs ?w !! ?k] |- _ =>
             rewrite H in Hb
         end;
  try congruence; try lia.

Ltac flags Hd Hcc Hmc Hca Hma :=
  rewrite ?Hd, ?Hcc, ?Hmc, ?Hca, ?Hma.

(** X22: for a payload type without trivial special members, every member
    call that returns keeps the payloads balanced: each payload that was
    constructed and not destroyed since is the payload of a live Option in
    state [Some], and every such Option has one; no call leaks a payload or
    destroys one twice. *)
Theorem commands_keep_payloads_balanced (w w' : world T) c :
  manual traits ->
  balanced T w ->
  admissible T c w ->
  exec T clone_T clone_from_T default_T traits c w = Ret tt w' ->
  balanced T w'.
Proof.
  intros (Hd & Hcc & Hmc & Hca & Hma) Hbal Hadm Hrun.
  destruct c; cbn [exec admissible] in *; unfold alive, unused in *;
    repeat match goal with H : _ /\ _ |- _ => destruct H end;
    repeat match goal with H : is_Some _ |- _ => destruct H as [? H] end.
  all: try match goal with
           | H1 : objs ?w0 !! ?x = Some _, H2 : objs ?w0 !! ?y = Some _ |- _ =>
               tryif constr_eq x y then fail else
               (destruct (decide (x = y));
                [subst; assert (Heq := H1); rewrite H2 in Heq;
                 injection Heq as <-; clear H2|])
           end.
  all: repeat match goal with
              | H : objs _ !! _ = Some ?x |- _ => is_var x; destruct x
              end.
  all: revert Hrun; unfold drop;
    do 2 Option_More.unfold_more; flags Hd Hcc Hmc Hca Hma;
    rewrite ?Pos.eqb_refl;
    repeat match goal with
           | |- context [Pos.eqb ?x ?y] =>
               destruct (Pos.eqb_spec x y); [congruence|]
           end.
  all: repeat match goal with
              | |- context [is_copy traits] => destruct (is_copy traits)
              | |- context [has_clone_from traits] =>
                  destruct (has_clone_from traits)
              end.
  all: repeat first
         [ progress lookups'
         | progress flags Hd Hcc Hmc Hca Hma
         | match goal with
           | |- context [if ?f ?x then _ else _] => is_var f; destruct (f x)
           | |- context [match ?f ?x with Some _ => _ | None => _ end] =>
               is_var f; destruct (f x)
           end ].
  all: try (intros [=]; fail).
  all: try (intros [= <-]; settle Hbal; fail).
Qed.


Ltac split_flags :=
  repeat match goal with
         | |- context [if ?f traits then _ else _] => destruct (f traits)
         end.

(** X24: [clone_from(source)] on a different Option makes the target hold a
    clone of what the source holds, in the four combinations of states: the
    payload is cloned in place when both hold a value, a fresh clone is
    moved in when only the source does, and the target becomes [None] when
    the source is [None]. The source is unchanged and the temporary
    [source.clone()] is gone afterwards. *)
Theorem clone_from_in_every_state w this source tmp st s :
  this <> source -> tmp <> this -> tmp <> source ->
  objs w !! tmp = None ->
  objs w !! this = Some st ->
  objs w !! source = Some s ->
  exists w',
    clone_from T clone_T clone_from_T traits this source tmp w = Ret tt w' /\
    objs w' !! this =
      Some match st, s with
           | Some v, Some u =>
               Some (if is_copy traits then u
                     else if has_clone_from traits then clone_from_T v u
                     else clone_T u)
           | None, Some u => Some (clone_value T clone_T traits u)
           | _, None => None
           end /\
    objs w' !! source = Some s /\
    objs w' !! tmp = None.
Proof.
  intros Hne Hne' Hne'' Htmp Hthis Hsrc.
  unfold clone_from. destruct (Pos.eqb_spec source this); [congruence|].
  destruct st as [v|], s as [u|];
    do 2 Option_More.unfold_more; split_flags; lookups';
    (eexists; split; [reflexivity|]); repeat split; lookups'; reflexivity.
Qed.

(** X25: the [const&] overloads of [map] and [filter] work on a copy: the
    result is the one of the consuming overload, the source still holds
    what it held, and the temporary copy is gone afterwards. *)
Theorem const_overloads_keep_source w this tmp result s (m : T -> T)
    (p : T -> bool) :
  tmp <> this -> result <> this -> result <> tmp ->
  objs w !! tmp = None ->
  objs w !! this = Some s ->
  (exists w',
      map_const T traits this tmp result m w = Ret tt w' /\
      objs w' !! result = Some (m <$> s) /\
      objs w' !! this = Some s /\
      objs w' !! tmp = None) /\
  (exists w',
      filter_const T traits this tmp result p w = Ret tt w' /\
      objs w' !! result =
        Some match s with
             | Some v => if p v then Some v else None
             | None => None
             end /\
      objs w' !! this = Some s /\
      objs w' !! tmp = None).
Proof.
  intros Hne Hne' Hne'' Htmp Hthis.
  split; destruct s as [v|];
    do 2 Option_More.unfold_more; split_flags; lookups';
    try (destruct (p v)); lookups';
    (eexists; split; [reflexivity|]); repeat split; lookups'; reflexivity.
Qed.

(** X26: the comparisons of Options over a weakly or a partially ordered
    payload put [None] first, like the strong one: [None] is equivalent to
    [None] and less than every [Some], and two values compare as the
    payloads do.  Options are unordered only when both hold values and the
    payloads are unordered. *)
Theorem weak_and_partial_ordering_none_first
    (T_weak : T -> T -> choice_storage.weak_ordering)
    (T_partial : T -> T -> choice_storage.partial_ordering)
    w l r sl sr :
  objs w !! l = Some sl ->
  objs w !! r = Some sr ->
  Option_weak_cmp T T_weak l r w =
    Ret match sl, sr with
        | Some x, Some y => T_weak x y
        | Some _, None => choice_storage.weak_greater
        | None, Some _ => choice_storage.weak_less
        | None, None => choice_storage.weak_equivalent
        end w /\
  Option_partial_cmp T T_partial l r w =
    Ret match sl, sr with
        | Some x, Some y => T_partial x y
        | Some _, None => choice_storage.partial_greater
        | None, Some _ => choice_storage.partial_less
        | None, None => choice_storage.partial_equivalent
        end w /\
  (Option_partial_cmp T T_partial l r w =
     Ret choice_storage.partial_unordered w ->
   exists x y,
     sl = Some x /\ sr = Some y /\
     T_partial x y = choice_storage.partial_unordered).
Proof.
  intros Hl Hr. unfold Option_weak_cmp, Option_partial_cmp.
  destruct sl as [x|], sr as [y|]; (split; [run; reflexivity|]);
    (split; [run; reflexivity|]); run; intros [= Hun].
  exists x, y. repeat split. exact Hun.
Qed.

End Proofs.

(** ** Concrete runs *)

Local Open Scope positive_scope.

Lemma Z_strong_order_flip x y :
  choice_storage.Z_strong_order y x =
  strong_flip (choice_storage.Z_strong_order x y).
Proof.
  unfold choice_storage.Z_strong_order. rewrite (Z.compare_antisym x y).
  destruct (x ?= y)%Z; reflexivity.
Qed.

Lemma Z_strong_order_less x y :
  choice_storage.Z_strong_order x y = choice_storage.strong_less <-> (x < y)%Z.
Proof.
  unfold choice_storage.Z_strong_order.
  destruct (Z.compare_spec x y); split; intros; try lia; try discriminate;
    reflexivity.
Qed.

Lemma Z_strong_order_eqb x y :
  Z.eqb x y = true <->
  choice_storage.Z_strong_order x y = choice_storage.strong_equivalent.
Proof.
  rewrite Z.eqb_eq. unfold choice_storage.Z_strong_order.
  destruct (Z.compare_spec x y); split; intros; try lia; try discriminate;
    reflexivity.
Qed.

Lemma world_built_balanced : balanced Z world_built.
Proof.
  intros a. unfold world_built. cbn [objs log constructs destroys].
  destruct (Pos.eqb_spec a 1) as [->|Hne]; [reflexivity|].
  rewrite lookup_insert. case_decide; [reflexivity|].
  rewrite lookup_singleton_ne by congruence. reflexivity.
Qed.

Lemma take_moves_out_once_witness :
  (1 <> 3 /\ 1 <> 4 /\ objs world_built !! 1 = Some (Some 5%Z)) /\
  exists w',
    take Z 1 3 world_built = Ret tt w' /\
    objs w' !! 3 = Some (Some 5%Z) /\
    objs w' !! 1 = Some None /\
    log w' = (log world_built ++ [EvDestroy 1; EvConstruct 3 5%Z])%list /\
    exists w'',
      take Z 1 4 w' = Ret tt w'' /\
      objs w'' !! 4 = Some None /\
      objs w'' !! 1 = Some None /\
      log w'' = log w'.
Proof.
  split; [repeat split; (discriminate || reflexivity)|].
  apply (take_moves_out_once world_built 1 3 4 (Some 5%Z));
    (discriminate || reflexivity).
Defined.

Lemma map_applies_to_payload_witness :
  (1 <> 3 /\ objs world_built !! 1 = Some (Some 5%Z)) /\
  (exists w',
      map Z 1 3 Z.succ world_built = Ret tt w' /\
      objs w' !! 3 = Some (Some 6%Z) /\
      objs w' !! 1 = Some None) /\
  (exists w',
      map_or Z 1 0%Z Z.succ world_built = Ret 6%Z w' /\
      objs w' !! 1 = Some None) /\
  (exists w',
      map_or_else Z 1 (fun _ => 0%Z) Z.succ world_built = Ret 6%Z w' /\
      objs w' !! 1 = Some None).
Proof.
  split; [repeat split; (discriminate || reflexivity)|].
  apply (map_applies_to_payload world_built 1 3 (Some 5%Z) Z.succ Z.succ 0%Z
           (fun _ => 0%Z)); (discriminate || reflexivity).
Defined.

Lemma map_map_fuses_witness :
  (1 <> 3 /\ 3 <> 4 /\ 1 <> 4 /\ objs world_built !! 1 = Some (Some 5%Z)) /\
  exists w1 w2,
    bind Z (map Z 1 3 Z.succ) (fun _ => map Z 3 4 Z.double) world_built
      = Ret tt w1 /\
    map Z 1 4 (fun x => Z.double (Z.succ x)) world_built = Ret tt w2 /\
    objs w1 !! 4 = objs w2 !! 4 /\
    objs w1 !! 4 = Some (Some 12%Z) /\
    objs w1 !! 1 = Some None /\ objs w1 !! 3 = Some None /\
    objs w2 !! 1 = Some None.
Proof.
  split; [repeat split; (discriminate || reflexivity)|].
  apply (map_map_fuses world_built 1 3 4 (Some 5%Z) Z.succ Z.double);
    (discriminate || reflexivity).
Defined.

Lemma and_then_is_bind_witness :
  (1 <> 3 /\ 5 <> 3 /\
   objs world_built !! 1 = Some (Some 5%Z) /\
   objs world_built !! 5 = None) /\
  (exists w',
      and_then Z 1 3 (fun x => if Z.even x then None else Some (x + 1)%Z)
        world_built = Ret tt w' /\
      objs w' !! 3 = Some (Some 6%Z) /\
      objs w' !! 1 = Some None) /\
  (exists w',
      bind Z (with_ Z 5 8%Z)
        (fun _ => and_then Z 5 3
                    (fun x => if Z.even x then None else Some (x + 1)%Z))
        world_built = Ret tt w' /\
      objs w' !! 3 = Some None) /\
  (exists w',
      and_then Z 1 3 Some world_built = Ret tt w' /\
      objs w' !! 3 = Some (Some 5%Z)).
Proof.
  split; [repeat split; (discriminate || reflexivity)|].
  apply (and_then_is_bind world_built 1 5 3 (Some 5%Z) 8%Z
           (fun x => if Z.even x then None else Some (x + 1)%Z));
    (discriminate || reflexivity).
Defined.


Lemma insert_and_get_or_insert_witness :
  objs world_built !! 2 = Some None /\
  (exists w',
      insert Z 2 7%Z world_built = Ret 7%Z w' /\
      objs w' !! 2 = Some (Some 7%Z)) /\
  (exists w',
      get_or_insert Z 2 7%Z world_built = Ret 7%Z w' /\
      objs w' !! 2 = Some (Some 7%Z) /\
      (is_Some (@None Z) -> w' = world_built)) /\
  (exists w',
      get_or_insert_default Z 0%Z 2 world_built = Ret 0%Z w' /\
      objs w' !! 2 = Some (Some 0%Z) /\
      (is_Some (@None Z) -> w' = world_built)) /\
  (exists w',
      get_or_insert_with Z 2 (fun _ => 8%Z) world_built = Ret 8%Z w' /\
      objs w' !! 2 = Some (Some 8%Z) /\
      (is_Some (@None Z) -> w' = world_built)).
Proof.
  split; [reflexivity|].
  apply (insert_and_get_or_insert 0%Z world_built 2 None 7%Z (fun _ => 8%Z)).
  reflexivity.
Defined.

Lemma replace_returns_previous_witness :
  (1 <> 3 /\ 1 <> 4 /\ objs world_built !! 1 = Some (Some 5%Z)) /\
  exists w',
    replace Z 1 3 7%Z world_built = Ret tt w' /\
    objs w' !! 3 = Some (Some 5%Z) /\
    objs w' !! 1 = Some (Some 7%Z) /\
    exists w'',
      replace Z 1 4 8%Z w' = Ret tt w'' /\
      objs w'' !! 4 = Some (Some 7%Z) /\
      objs w'' !! 1 = Some (Some 8%Z).
Proof.
  split; [repeat split; (discriminate || reflexivity)|].
  apply (replace_returns_previous world_built 1 3 4 (Some 5%Z) 7%Z 8%Z);
    (discriminate || reflexivity).
Defined.

Lemma as_value_peeks_witness :
  objs world_built !! 1 = Some (Some 5%Z) /\
  as_value Z 1 world_built = Ret 5%Z world_built /\
  bind Z (as_value Z 1) (fun _ => unwrap Z 1) world_built =
    unwrap Z 1 world_built.
Proof.
  split; [reflexivity|].
  apply (as_value_peeks world_built 1 (Some 5%Z)). reflexivity.
Defined.

Lemma option_order_laws_witness :
  ((forall x y, choice_storage.Z_strong_order y x =
                strong_flip (choice_storage.Z_strong_order x y)) /\
   (forall x y z,
       choice_storage.Z_strong_order x y = choice_storage.strong_less ->
       choice_storage.Z_strong_order y z = choice_storage.strong_less ->
       choice_storage.Z_strong_order x z = choice_storage.strong_less) /\
   (forall x y, Z.eqb x y = true <->
                choice_storage.Z_strong_order x y =
                choice_storage.strong_equivalent) /\
   objs world_two_some !! 1 = Some (Some 5%Z) /\
   objs world_two_some !! 2 = Some (Some 9%Z)) /\
  exists o_lm,
    Option_cmp Z choice_storage.Z_strong_order 1 2 world_two_some
      = Ret o_lm world_two_some /\
    Option_cmp Z choice_storage.Z_strong_order 2 1 world_two_some
      = Ret (strong_flip o_lm) world_two_some /\
    (Option_eq Z Z.eqb 1 2 world_two_some = Ret true world_two_some <->
     o_lm = choice_storage.strong_equivalent) /\
    (o_lm = choice_storage.strong_less ->
     Option_cmp Z choice_storage.Z_strong_order 2 2 world_two_some
       = Ret choice_storage.strong_less world_two_some ->
     Option_cmp Z choice_storage.Z_strong_order 1 2 world_two_some
       = Ret choice_storage.strong_less world_two_some).
Proof.
  assert (Htrans : forall x y z,
             choice_storage.Z_strong_order x y = choice_storage.strong_less ->
             choice_storage.Z_strong_order y z = choice_storage.strong_less ->
             choice_storage.Z_strong_order x z = choice_storage.strong_less).
  { intros x y z. rewrite !Z_strong_order_less. lia. }
  split.
  - split; [exact Z_strong_order_flip|]. split; [exact Htrans|].
    split; [exact Z_strong_order_eqb|]. split; reflexivity.
  - apply (option_order_laws Z.eqb choice_storage.Z_strong_order
             world_two_some 1 2 2 (Some 5%Z) (Some 9%Z) (Some 9%Z)
             Z_strong_order_flip Htrans Z_strong_order_eqb);
      reflexivity.
Defined.

Lemma commands_keep_payloads_balanced_witness :
  (manual nontrivial_traits /\ balanced Z world_built /\
   admissible Z (CTake Z 1 3) world_built) /\
  exists w',
    exec Z Z_clone Z_clone_from 0%Z nontrivial_traits (CTake Z 1 3) world_built
      = Ret tt w' /\
    balanced Z w'.
Proof.
  assert (Hman : manual nontrivial_traits) by (repeat split).
  assert (Hadm : admissible Z (CTake Z 1 3) world_built).
  { split; [exists (Some 5%Z)|]; reflexivity. }
  split; [split; [exact Hman|split; [exact world_built_balanced|exact Hadm]]|].
  eexists. split; [reflexivity|].
  apply (commands_keep_payloads_balanced Z_clone Z_clone_from 0%Z
           nontrivial_traits world_built _ (CTake Z 1 3) Hman
           world_built_balanced Hadm).
  reflexivity.
Defined.


Lemma clone_from_in_every_state_witness :
  (2 <> 1 /\ 3 <> 2 /\ 3 <> 1 /\
   objs world_built !! 3 = None /\
   objs world_built !! 2 = Some None /\
   objs world_built !! 1 = Some (Some 5%Z)) /\
  exists w',
    clone_from Z Z_clone Z_clone_from nontrivial_traits 2 1 3 world_built
      = Ret tt w' /\
    objs w' !! 2 = Some (Some 5%Z) /\
    objs w' !! 1 = Some (Some 5%Z) /\
    objs w' !! 3 = None.
Proof.
  split; [repeat split; (discriminate || reflexivity)|].
  apply (clone_from_in_every_state Z_clone Z_clone_from nontrivial_traits
           world_built 2 1 3 None (Some 5%Z));
    (discriminate || reflexivity).
Defined.

Lemma const_overloads_keep_source_witness :
  (3 <> 1 /\ 4 <> 1 /\ 4 <> 3 /\
   objs world_built !! 3 = None /\
   objs world_built !! 1 = Some (Some 5%Z)) /\
  (exists w',
      map_const Z nontrivial_traits 1 3 4 Z.succ world_built = Ret tt w' /\
      objs w' !! 4 = Some (Some 6%Z) /\
      objs w' !! 1 = Some (Some 5%Z) /\
      objs w' !! 3 = None) /\
  (exists w',
      filter_const Z nontrivial_traits 1 3 4 Z.even world_built = Ret tt w' /\
      objs w' !! 4 = Some None /\
      objs w' !! 1 = Some (Some 5%Z) /\
      objs w' !! 3 = None).
Proof.
  split; [repeat split; (discriminate || reflexivity)|].
  apply (const_overloads_keep_source nontrivial_traits world_built 1 3 4
           (Some 5%Z) Z.succ Z.even);
    (discriminate || reflexivity).
Defined.

Lemma weak_and_partial_ordering_none_first_witness :
  (objs world_built !! 2 = Some None /\
   objs world_built !! 1 = Some (Some 5%Z)) /\
  Option_weak_cmp Z choice_storage.Z_weak_order 2 1 world_built =
    Ret choice_storage.weak_less world_built /\
  Option_partial_cmp Z choice_storage.Z_partial_order 2 1 world_built =
    Ret choice_storage.partial_less world_built /\
  (Option_partial_cmp Z choice_storage.Z_partial_order 2 1 world_built =
     Ret choice_storage.partial_unordered world_built ->
   exists x y,
     None = Some x /\ Some 5%Z = Some y /\
     choice_storage.Z_partial_order x y = choice_storage.partial_unordered).
Proof.
  split; [split; reflexivity|].
  apply (weak_and_partial_ordering_none_first choice_storage.Z_weak_order
           choice_storage.Z_partial_order world_built 2 1 None (Some 5%Z));
    reflexivity.
Defined.

End Option_More.

(* ===================================================================== *)
(** * Properties of the iterators over Options                            *)
(* ===================================================================== *)

Module Iter_More.
Import iter.

Section Proofs.
Context {Item : Type}.
Implicit Types (p : Item -> bool) (l : list Item).

Lemma take_drop_while p l : take_while p l ++ drop_while p l = l.
Proof.
  induction l as [|x l IH]; [reflexivity|].
  cbn. destruct (p x); [cbn; rewrite IH|]; reflexivity.
Qed.

Lemma take_while_all p l : Forall (fun x => p x = true) (take_while p l).
Proof.
  induction l as [|x l IH]; [constructor|].
  cbn. destruct (p x) eqn:Hp; constructor; assumption.
Qed.

Lemma drop_while_head p l x : head (drop_while p l) = Some x -> p x = false.
Proof.
  induction l as [|y l IH]; [discriminate|].
  cbn. destruct (p y) eqn:Hp; [exact IH|]. intros [= <-]. exact Hp.
Qed.

Lemma drop_while_length p l : length (drop_while p l) <= length l.
Proof.
  rewrite <- (take_drop_while p l) at 2. rewrite length_app. lia.
Qed.

Lemma drain_take_while p l fuel :
  length l < fuel ->
  drain fuel (TakeWhile.next seq_next) (TakeWhile.with_ p l) =
    Some (take_while p l, take_while_end p l).
Proof.
  revert fuel. induction l as [|x l IH]; intros [|fuel] Hlen;
    try (cbn in Hlen; lia); [reflexivity|].
  cbn in Hlen. unfold take_while_end. cbn.
  destruct (p x) eqn:Hp; cbn; [|reflexivity].
  change {| TakeWhile.pred_ := Some p; TakeWhile.next_iter_ := l |}
    with (TakeWhile.with_ p l).
  rewrite IH by lia. reflexivity.
Qed.

Lemma take_while_fused p l :
  TakeWhile.next seq_next (take_while_end p l) =
    Some (None, take_while_end p l).
Proof.
  unfold take_while_end. destruct (drop_while p l); reflexivity.
Qed.

Lemma skip_while_first p l fuel :
  length l < fuel ->
  SkipWhile.next seq_next fuel (SkipWhile.with_ p l) =
    Some match drop_while p l with
         | [] => (None, SkipWhile.with_ p [])
         | x :: rest =>
             (Some x, {| SkipWhile.pred_ := None;
                         SkipWhile.next_iter_ := rest |})
         end.
Proof.
  revert fuel. induction l as [|x l IH]; intros [|fuel] Hlen;
    try (cbn in Hlen; lia); [reflexivity|].
  cbn in Hlen. cbn. destruct (p x) eqn:Hp; cbn; [|reflexivity].
  apply (IH fuel). lia.
Qed.

Lemma skip_while_pass l fuel fuel' :
  length l < fuel ->
  drain fuel (SkipWhile.next seq_next (S fuel'))
    {| SkipWhile.pred_ := None; SkipWhile.next_iter_ := l |} =
    Some (l, {| SkipWhile.pred_ := None; SkipWhile.next_iter_ := [] |}).
Proof.
  revert fuel. induction l as [|x l IH]; intros [|fuel] Hlen;
    try (cbn in Hlen; lia); [reflexivity|].
  cbn in Hlen. cbn [drain]. cbn [SkipWhile.next seq_next mbind option_bind
    SkipWhile.next_iter_ SkipWhile.pred_].
  rewrite IH by lia. reflexivity.
Qed.

(** X27: over a finite sequence, [TakeWhile] yields the longest prefix whose
    items satisfy the predicate and returns [None] from then on, without
    advancing the inner iterator again; [SkipWhile] yields everything from
    the first item that fails the predicate on, later items that satisfy it
    included.  The two parts make up the sequence. *)
Theorem take_while_then_skip_while p l fuel :
  length l < fuel ->
  exists st st',
    drain fuel (TakeWhile.next seq_next) (TakeWhile.with_ p l) =
      Some (take_while p l, st) /\
    TakeWhile.next seq_next st = Some (None, st) /\
    drain fuel (SkipWhile.next seq_next fuel) (SkipWhile.with_ p l) =
      Some (drop_while p l, st') /\
    take_while p l ++ drop_while p l = l /\
    Forall (fun x => p x = true) (take_while p l) /\
    (forall x, head (drop_while p l) = Some x -> p x = false).
Proof.
  intros Hlen. exists (take_while_end p l).
  assert (Hskip : exists st',
             drain fuel (SkipWhile.next seq_next fuel) (SkipWhile.with_ p l) =
               Some (drop_while p l, st')).
  { destruct fuel as [|fuel']; [lia|].
    cbn [drain]. rewrite (skip_while_first p l (S fuel') Hlen).
    pose proof (drop_while_length p l) as Hdrop.
    destruct (drop_while p l) as [|x rest]; cbn [mbind option_bind].
    - eexists. reflexivity.
    - cbn in Hdrop. rewrite skip_while_pass by lia.
      eexists. reflexivity. }
  destruct Hskip as [st' Hskip]. exists st'.
  split; [apply drain_take_while; exact Hlen|].
  split; [apply take_while_fused|].
  split; [exact Hskip|].
  split; [apply take_drop_while|].
  split; [apply take_while_all|apply drop_while_head].
Qed.

Lemma filter_first p l fuel :
  length l < fuel ->
  Filter.find seq_next fuel (Filter.with_ p l) =
    Some match drop_while (fun x => negb (p x)) l with
         | [] => (None, Filter.with_ p [])
         | x :: rest => (Some x, Filter.with_ p rest)
         end.
Proof.
  revert fuel. induction l as [|x l IH]; intros [|fuel] Hlen;
    try (cbn in Hlen; lia); [reflexivity|].
  cbn in Hlen. cbn. destruct (p x) eqn:Hp; cbn; [reflexivity|].
  apply (IH fuel). lia.
Qed.

Lemma filter_drop_while p l :
  List.filter p l = List.filter p (drop_while (fun x => negb (p x)) l).
Proof.
  induction l as [|x l IH]; [reflexivity|].
  cbn. destruct (p x) eqn:Hp; cbn; [rewrite Hp; reflexivity|exact IH].
Qed.

Lemma drain_filter p l fuel fuel' :
  length l < fuel -> length l < fuel' ->
  drain fuel (Filter.next seq_next fuel') (Filter.with_ p l) =
    Some (List.filter p l, Filter.with_ p []).
Proof.
  remember (length l) as n eqn:Hn.
  assert (Hle : length l <= n) by lia. clear Hn.
  revert l fuel Hle. induction n as [|n IH]; intros l fuel Hle Hf Hf'.
  - destruct l; [|cbn in Hle; lia].
    destruct fuel as [|fuel]; [lia|]. destruct fuel' as [|fuel']; [lia|].
    reflexivity.
  - destruct fuel as [|fuel]; [lia|].
    cbn [drain]. unfold Filter.next. rewrite filter_first by lia.
    rewrite (filter_drop_while p l).
    pose proof (drop_while_length (fun x => negb (p x)) l) as Hlen.
    pose proof (drop_while_head (fun x => negb (p x)) l) as Hhead.
    destruct (drop_while (fun x => negb (p x)) l) as [|x rest];
      cbn [mbind option_bind]; [reflexivity|].
    cbn in Hlen.
    fold (Filter.next (Item:=Item) seq_next fuel').
    rewrite (IH rest fuel) by lia.
    cbn [mbind option_bind List.filter].
    specialize (Hhead x eq_refl). apply negb_false_iff in Hhead.
    rewrite Hhead. reflexivity.
Qed.

Lemma seq_next_back_rev (r : list Item) :
  seq_next_back (rev r) =
    match r with
    | [] => Some (None, [])
    | x :: r' => Some (Some x, rev r')
    end.
Proof. unfold seq_next_back. rewrite rev_involutive. reflexivity. Qed.

Lemma find_back fuel (st : Filter.t (list Item) Item) :
  Filter.find seq_next_back fuel (filter_back st) =
    (fun '(o, st') => (o, filter_back st')) <$> Filter.find seq_next fuel st.
Proof.
  revert st. induction fuel as [|fuel IH]; intros [p r]; [reflexivity|].
  cbn [Filter.find filter_back Filter.next_iter_ Filter.pred_].
  rewrite seq_next_back_rev.
  destruct r as [|x r]; [reflexivity|].
  cbn [seq_next mbind option_bind].
  destruct (p x); [reflexivity|].
  apply (IH {| Filter.pred_ := p; Filter.next_iter_ := r |}).
Qed.

Lemma drain_back fuel fuel' (st : Filter.t (list Item) Item) :
  drain fuel (Filter.next_back seq_next_back fuel') (filter_back st) =
    (fun '(items, st') => (items, filter_back st')) <$>
      drain fuel (Filter.next seq_next fuel') st.
Proof.
  revert st. induction fuel as [|fuel IH]; intros st; [reflexivity|].
  cbn [drain]. unfold Filter.next_back, Filter.next. rewrite find_back.
  destruct (Filter.find seq_next fuel' st) as [[[x|] st']|];
    cbn [fmap option_fmap option_map mbind option_bind]; try reflexivity.
  fold (Filter.next_back (Item:=Item) seq_next_back fuel').
  fold (Filter.next (Item:=Item) seq_next fuel').
  rewrite IH.
  destruct (drain fuel (Filter.next seq_next fuel') st') as [[items st'']|];
    reflexivity.
Qed.

(** X28: over a finite sequence, [Filter] yields exactly the items that
    satisfy the predicate, in order, and exhausts the inner iterator;
    through [Reverse], which swaps [next()] and [next_back()], it yields
    them in reverse order, and reversing twice gives the forward order
    back. *)
Theorem filter_forward_and_reversed p l fuel :
  length l < fuel ->
  drain fuel (Filter.next seq_next fuel) (Filter.with_ p l) =
    Some (List.filter p l, Filter.with_ p []) /\
  drain fuel (Reverse.next (Filter.next_back seq_next_back fuel))
    (Filter.with_ p l) =
    Some (rev (List.filter p l), Filter.with_ p []) /\
  drain fuel
    (Reverse.next (Reverse.next_back (Filter.next seq_next fuel)))
    (Filter.with_ p l) =
    Some (List.filter p l, Filter.with_ p []).
Proof.
  intros Hlen.
  assert (Hfwd := drain_filter p l fuel fuel Hlen Hlen).
  split; [exact Hfwd|]. split; [|exact Hfwd].
  change (Reverse.next (Filter.next_back seq_next_back fuel))
    with (Filter.next_back (Item:=Item) seq_next_back fuel).
  replace (Filter.with_ p l) with (filter_back (Filter.with_ p (rev l)))
    by (unfold filter_back, Filter.with_; cbn; rewrite rev_involutive;
        reflexivity).
  rewrite drain_back, drain_filter by (rewrite length_rev; exact Hlen).
  cbn. rewrite filter_rev. reflexivity.
Qed.

End Proofs.

Section FromIterator.
Context {T : Type}.
Variable one zero : T.
Variable mul add : T -> T -> T.

Lemma drain_IterUntilNone (vals : list T) (tail : list (option T)) fuel
    found :
  drain (length vals + fuel) (IterUntilNone_next seq_next)
    (map Some vals ++ tail, found) =
    ('(items, s) ← drain fuel (IterUntilNone_next seq_next) (tail, found);
     Some (vals ++ items, s)).
Proof.
  induction vals as [|v vals IH].
  - cbn.
    destruct (drain fuel (IterUntilNone_next seq_next) (tail, found))
      as [[items s]|]; reflexivity.
  - cbn. rewrite IH.
    destruct (drain fuel (IterUntilNone_next seq_next) (tail, found))
      as [[items s]|]; reflexivity.
Qed.

Lemma drain_UntilNoneIter (vals : list T) (tail : list (option T)) fuel :
  drain (length vals + fuel) (UntilNoneIter_next seq_next)
    (map Some vals ++ tail, false) =
    ('(items, s) ← drain fuel (UntilNoneIter_next seq_next) (tail, false);
     Some (vals ++ items, s)).
Proof.
  induction vals as [|v vals IH].
  - cbn.
    destruct (drain fuel (UntilNoneIter_next seq_next) (tail, false))
      as [[items s]|]; reflexivity.
  - cbn. rewrite IH.
    destruct (drain fuel (UntilNoneIter_next seq_next) (tail, false))
      as [[items s]|]; reflexivity.
Qed.

(** X29: [from_product] and [from_sum] of a finite sequence of Options
    return [Some] of the product (the sum) of the values when every item
    holds one, and [None] as soon as an item is [None]: the items after the
    first [None] are left in the iterator. *)
Theorem from_product_stops_at_none vals post fuel :
  length vals < fuel ->
  from_product_impl seq_next one mul fuel (map Some vals) =
    Some (Some (fold_left mul vals one), []) /\
  from_product_impl seq_next one mul fuel (map Some vals ++ None :: post) =
    Some (None, post) /\
  from_sum_impl seq_next zero add fuel (map Some vals) =
    Some (Some (fold_left add vals zero), []) /\
  from_sum_impl seq_next zero add fuel (map Some vals ++ None :: post) =
    Some (None, post).
Proof.
  intros Hlen.
  replace fuel with (length vals + S (fuel - length vals - 1)) by lia.
  pose proof (drain_IterUntilNone vals [] (S (fuel - length vals - 1)) false)
    as Hall.
  pose proof (drain_IterUntilNone vals (None :: post)
                (S (fuel - length vals - 1)) false) as Hnone.
  rewrite app_nil_r in Hall. cbn in Hall, Hnone.
  rewrite app_nil_r in Hall, Hnone.
  unfold from_product_impl, from_sum_impl, accumulate.
  rewrite Hall, Hnone. repeat split; reflexivity.
Qed.

(** X30: [from_iter] of a finite sequence of Options collects the values
    into [Some] of the container when every item holds one, and returns
    [None] as soon as an item is [None], leaving the items after it in the
    iterator. *)
Theorem from_iter_stops_at_none {C} (collect_C : list T -> C) vals post fuel :
  length vals < fuel ->
  from_iter seq_next collect_C fuel (map Some vals) =
    Some (Some (collect_C vals), []) /\
  from_iter seq_next collect_C fuel (map Some vals ++ None :: post) =
    Some (None, post).
Proof.
  intros Hlen.
  replace fuel with (length vals + S (fuel - length vals - 1)) by lia.
  pose proof (drain_UntilNoneIter vals [] (S (fuel - length vals - 1)))
    as Hall.
  pose proof (drain_UntilNoneIter vals (None :: post)
                (S (fuel - length vals - 1))) as Hnone.
  rewrite app_nil_r in Hall. cbn in Hall, Hnone.
  rewrite app_nil_r in Hall, Hnone.
  unfold from_iter. rewrite Hall, Hnone. split; reflexivity.
Qed.

End FromIterator.

(** ** Concrete runs *)

Local Open Scope Z_scope.

Lemma take_while_then_skip_while_witness :
  (length [2; 4; 5; 6] < 5)%nat /\
  exists st st',
    drain 5 (TakeWhile.next seq_next) (TakeWhile.with_ Z.even [2; 4; 5; 6]) =
      Some ([2; 4], st) /\
    TakeWhile.next seq_next st = Some (None, st) /\
    drain 5 (SkipWhile.next seq_next 5) (SkipWhile.with_ Z.even [2; 4; 5; 6]) =
      Some ([5; 6], st') /\
    [2; 4] ++ [5; 6] = [2; 4; 5; 6] /\
    Forall (fun x => Z.even x = true) [2; 4] /\
    (forall x, head [5; 6] = Some x -> Z.even x = false).
Proof.
  split; [cbn; lia|].
  apply (take_while_then_skip_while Z.even [2; 4; 5; 6] 5). cbn; lia.
Defined.

Lemma filter_forward_and_reversed_witness :
  (length [2; 5; 4; 7] < 5)%nat /\
  drain 5 (Filter.next seq_next 5) (Filter.with_ Z.even [2; 5; 4; 7]) =
    Some ([2; 4], Filter.with_ Z.even []) /\
  drain 5 (Reverse.next (Filter.next_back seq_next_back 5))
    (Filter.with_ Z.even [2; 5; 4; 7]) =
    Some ([4; 2], Filter.with_ Z.even []) /\
  drain 5 (Reverse.next (Reverse.next_back (Filter.next seq_next 5)))
    (Filter.with_ Z.even [2; 5; 4; 7]) =
    Some ([2; 4], Filter.with_ Z.even []).
Proof.
  split; [cbn; lia|].
  apply (filter_forward_and_reversed Z.even [2; 5; 4; 7] 5). cbn; lia.
Defined.

Lemma from_product_stops_at_none_witness :
  (length [2; 3] < 3)%nat /\
  from_product_impl seq_next 1 Z.mul 3 [Some 2; Some 3] = Some (Some 6, []) /\
  from_product_impl seq_next 1 Z.mul 3 [Some 2; Some 3; None; Some 4] =
    Some (None, [Some 4]) /\
  from_sum_impl seq_next 0 Z.add 3 [Some 2; Some 3] = Some (Some 5, []) /\
  from_sum_impl seq_next 0 Z.add 3 [Some 2; Some 3; None; Some 4] =
    Some (None, [Some 4]).
Proof.
  split; [cbn; lia|].
  apply (from_product_stops_at_none 1 0 Z.mul Z.add [2; 3] [Some 4] 3).
  cbn; lia.
Defined.

Lemma from_iter_stops_at_none_witness :
  (length [2; 3] < 3)%nat /\
  from_iter seq_next (fun items : list Z => items) 3 [Some 2; Some 3] =
    Some (Some [2; 3], []) /\
  from_iter seq_next (fun items : list Z => items) 3
    [Some 2; Some 3; None; Some 4] = Some (None, [Some 4]).
Proof.
  split; [cbn; lia|].
  apply (from_iter_stops_at_none (fun items : list Z => items) [2; 3]
           [Some 4] 3).
  cbn; lia.
Defined.

End Iter_More.
